(** * A verification development for the transactional core of the pipeline

    The development embeds, as labelled transition systems over the
    program points of the Go functions, the two stage loops that are
    part of the sources:

    - [Reader.loop]      lib/input reader wrapper (sync source wrapper),
    - [LineWriter.loop]  lib/output line writer (sync sink writer),

    and, from the specification, the two components whose code is not
    among the sources (the Batcher and the copy-on-write message model).
    Around the two loops it embeds, as functions on explicit state,

    - [KafkaBalanced]    lib/input/reader, an adapter the Reader drives,
    - [WithPipeline]     internal/old/output, an output behind pipelines.

    Go's [error] interface value is an [option]: [None] is [nil]. *)

From stdpp Require Import gmap strings list.

Set Default Goal Selector "!".

(** ** lib/types: sentinel errors, messages, transactions, responses *)

Module types.

(** The sentinel errors compared by identity in the loops, and any
    other error value (identified by its text). *)
Inductive Err : Type :=
| ErrTypeClosed
| ErrNotConnected
| ErrTimeout
| ErrOther (text : string).

#[global] Instance Err_eq_dec : EqDecision Err.
Proof. solve_decision. Defined.

Definition error : Type := option Err.

(** A message part is its byte payload; a message is the ordered
    sequence of its parts. *)
Definition Part : Type := string.
Definition Message : Type := list Part.

(** Channels are identified by a number. *)
Definition chan : Type := nat.

(** types.Response: [Error()] and [SkipAck()]. *)
Record Response : Type := mkResponse { Error : error; SkipAck : bool }.

#[global] Instance Response_eq_dec : EqDecision Response.
Proof. solve_decision. Defined.

(** types.Transaction: the payload and the channel its single
    resolution is sent on. *)
Record Transaction : Type :=
  NewTransaction { Payload : Message; ResponseChan : chan }.

#[global] Instance Transaction_eq_dec : EqDecision Transaction.
Proof. solve_decision. Defined.

End types.

(** ** lib/response *)

Module response.
Import types.

(** Modelled from the spec: lib/response is not among the sources.
    [NewError err] is the resolution that carries [err] ([nil] for
    success); it does not ask to skip the acknowledgement. *)
Definition NewError (err : error) : Response :=
  {| Error := err; SkipAck := false |}.

End response.

(** ** lib/util/throttle *)

Module throttle.

(** Modelled from the spec: lib/util/throttle is not among the sources.
    The throttle keeps the number of retries since the last [Reset];
    the wait of [Retry] is the backoff of that level, so a larger
    level is a grown backoff.  [Retry] reports [false] without growing
    when the shutdown signal has fired and [true] after it has waited;
    [Reset] collapses the backoff to its minimum. *)
Record Type' : Type := New { level : nat }.

Definition Retry (shutdown : bool) (t : Type') : bool * Type' :=
  if shutdown then (false, t) else (true, {| level := S (level t) |}).

Definition Reset (t : Type') : Type' := {| level := 0 |}.

End throttle.

(** ** lib/output: LineWriter *)

Module LineWriter.
Import types.

(** The fields of the LineWriter fixed at construction. *)
Record LineWriter : Type :=
  NewLineWriter { customDelim : string; closeOnExit : bool }.

Definition newline : string := String (Ascii.ascii_of_nat 10) EmptyString.

(** lines 108-111 *)
Definition delim (w : LineWriter) : string :=
  if decide (0 < String.length (customDelim w)) then customDelim w
  else newline.

(** bytes.Join *)
Fixpoint Join (parts : list string) (sep : string) : string :=
  match parts with
  | [] => EmptyString
  | [p] => p
  | p :: rest => p +:+ sep +:+ Join rest sep
  end.

(** lines 130-134: the bytes handed to the handle for one payload. *)
Definition rendered (w : LineWriter) (payload : Message) : string :=
  match payload with
  | [p] => p +:+ delim w
  | _ => Join payload (delim w) +:+ delim w +:+ delim w
  end.

(** Program points of [loop], named by the line they stand at. *)
Inductive pc : Type :=
| L113                                   (* for atomic.LoadInt32(&w.running) == 1 *)
| L116                                   (* select: <-w.transactions | <-w.closeChan *)
| L130 (ts : Transaction)                (* fmt.Fprintf(w.handle, ...) *)
| L148 (ts : Transaction) (err : error)  (* select: ts.ResponseChan <- ... | <-w.closeChan *)
| L100                                   (* deferred: w.handle.Close() *)
| L104                                   (* deferred: close(w.closedChan) *)
| Returned.

Record state : Type := mkState {
  at_pc : pc;
  running : bool;          (* w.running == 1 *)
  closeChan : bool;        (* w.closeChan has been closed *)
  closedChan : bool        (* w.closedChan has been closed *)
}.

(** What the loop does with its environment.  [CloseAsync_cas] and
    [CloseAsync_close] are the two effects of a concurrent call of
    [CloseAsync]; all other events are steps of [loop] together with
    the answer the environment gave. *)
Inductive event : Type :=
| CloseAsync_cas                          (* CompareAndSwapInt32(&w.running, 1, 0) *)
| CloseAsync_close                        (* close(w.closeChan) *)
| LoadRunning (r : bool)
| Recv (ts : Transaction)                 (* ts, open = <-w.transactions, open *)
| RecvNotOpen                             (* ts, open = <-w.transactions, !open *)
| CloseChan                               (* <-w.closeChan *)
| Fprintf (data : string) (err : error)   (* _, err = fmt.Fprintf(w.handle, ...) *)
| Send (c : chan) (res : Response)        (* c <- res *)
| HandleClose                             (* w.handle.Close() *)
| CloseClosedChan.                        (* close(w.closedChan) *)

Definition goto (s : state) (p : pc) : state :=
  {| at_pc := p; running := running s; closeChan := closeChan s;
     closedChan := closedChan s |}.

(** [return]: control passes to the deferred function (lines 98-105). *)
Definition deferred (w : LineWriter) (s : state) : state :=
  goto s (if closeOnExit w then L100 else L104).

Definition step (w : LineWriter) (s : state) (e : event) : option state :=
  match e, at_pc s with
  (* CloseAsync, lines 173-177 *)
  | CloseAsync_cas, _ =>
      if running s
      then Some {| at_pc := at_pc s; running := false;
                   closeChan := closeChan s; closedChan := closedChan s |}
      else None
  | CloseAsync_close, _ =>
      if negb (running s) && negb (closeChan s)
      then Some {| at_pc := at_pc s; running := running s;
                   closeChan := true; closedChan := closedChan s |}
      else None
  (* line 113 *)
  | LoadRunning r, L113 =>
      if decide (r = running s)
      then Some (if r then goto s L116 else deferred w s)
      else None
  (* lines 116-125 *)
  | Recv ts, L116 => Some (goto s (L130 ts))
  | RecvNotOpen, L116 => Some (deferred w s)
  | CloseChan, L116 => if closeChan s then Some (deferred w s) else None
  (* lines 129-134 *)
  | Fprintf data err, L130 ts =>
      if decide (data = rendered w (Payload ts))
      then Some (goto s (L148 ts err))
      else None
  (* lines 148-152 *)
  | Send c res, L148 ts err =>
      if decide (c = ResponseChan ts /\ res = response.NewError err)
      then Some (goto s L113)
      else None
  | CloseChan, L148 _ _ => if closeChan s then Some (deferred w s) else None
  (* lines 98-105 *)
  | HandleClose, L100 => Some (goto s L104)
  | CloseClosedChan, L104 =>
      Some {| at_pc := Returned; running := running s;
              closeChan := closeChan s; closedChan := true |}
  | _, _ => None
  end.

(** [Consume] starts the loop on a running writer. *)
Definition init : state :=
  {| at_pc := L113; running := true; closeChan := false;
     closedChan := false |}.

Fixpoint run (w : LineWriter) (s : state) (tr : list event) : option state :=
  match tr with
  | [] => Some s
  | e :: tr' =>
      match step w s e with
      | Some s' => run w s' tr'
      | None => None
      end
  end.

(** [loop], started by [Consume], along a trace of its events. *)
Definition loop (w : LineWriter) (tr : list event) : option state :=
  run w init tr.

(** The Transactions the loop took from its input, in order. *)
Definition accepted (tr : list event) : list Transaction :=
  omap (fun e => match e with Recv ts => Some ts | _ => None end) tr.

(** The resolutions the loop delivered, in order. *)
Definition resolved (tr : list event) : list (chan * Response) :=
  omap (fun e => match e with Send c res => Some (c, res) | _ => None end) tr.

(** The writes the loop performed, in order. *)
Definition written (tr : list event) : list (string * error) :=
  omap (fun e => match e with Fprintf d err => Some (d, err) | _ => None end) tr.

End LineWriter.

(** ** lib/input: Reader *)

Module Reader.
Import types.

(** The field of the Reader that the loop hands out: the channel on
    which every Transaction it emits is resolved. *)
Record Reader : Type := NewReader { responses : chan }.

(** Program points of [loop], named by the line they stand at. *)
Inductive pc : Type :=
| L117                    (* r.reader.Connect(), first connection *)
| L123                    (* r.connThrot.Retry() *)
| L127                    (* r.connThrot.Reset(); break *)
| L134                    (* for atomic.LoadInt32(&r.running) == 1 *)
| L135                    (* msg, err := r.reader.Read() *)
| L143                    (* for atomic.LoadInt32(&r.running) == 1, reconnect *)
| L144                    (* err = r.reader.Connect() *)
| L153                    (* r.connThrot.Retry() *)
| L156                    (* msg, err = r.reader.Read() *)
| L159                    (* r.connThrot.Reset(); break *)
| L175                    (* r.connThrot.Retry() *)
| L180                    (* r.connThrot.Reset() *)
| L189                    (* select: r.transactions <- ... | <-r.closeChan *)
| L195                    (* select: <-r.responses | <-r.closeChan *)
| L206 (res : Response)   (* r.reader.Acknowledge(res.Error()) *)
| L105                    (* deferred: r.reader.WaitForClose(time.Second) *)
| L111                    (* deferred: close(r.transactions) *)
| L112                    (* deferred: close(r.closedChan) *)
| Returned.

#[global] Instance pc_eq_dec : EqDecision pc.
Proof. solve_decision. Defined.

Record state : Type := mkState {
  at_pc : pc;
  msg : option Message;          (* the local msg; None is nil *)
  err : error;                   (* the local err *)
  running : bool;                (* r.running == 1 *)
  connected : bool;              (* r.connected == 1 *)
  connThrot : throttle.Type';
  closeChan : bool;              (* r.closeChan has been closed *)
  transactions : bool;           (* r.transactions has been closed *)
  closedChan : bool              (* r.closedChan has been closed *)
}.

(** [CloseAsync_cas] and [CloseAsync_close] are the two effects of a
    concurrent call of [CloseAsync] (lines 234-239); every other event
    is a step of [loop] with the answer it received. *)
Inductive event : Type :=
| CloseAsync_cas                            (* CompareAndSwapInt32(&r.running, 1, 0) *)
| CloseAsync_close                          (* close(r.closeChan) *)
| Connect (e : error)                       (* r.reader.Connect() *)
| Read (m : option Message) (e : error)     (* r.reader.Read() *)
| Acknowledge (arg : error) (ret : error)   (* r.reader.Acknowledge(arg) *)
| WaitForClose (e : error)                  (* r.reader.WaitForClose(time.Second) *)
| Retry (ok : bool)                         (* r.connThrot.Retry() *)
| Reset                                     (* r.connThrot.Reset() *)
| LoadRunning (b : bool)                    (* atomic.LoadInt32(&r.running) == 1 *)
| Send (ts : Transaction)                   (* r.transactions <- ts *)
| Recv (res : Response)                     (* res, open := <-r.responses, open *)
| RecvNotOpen                               (* res, open := <-r.responses, !open *)
| CloseChan                                 (* <-r.closeChan *)
| CloseTransactions                         (* close(r.transactions) *)
| CloseClosedChan.                          (* close(r.closedChan) *)

Definition goto (s : state) (p : pc) : state :=
  {| at_pc := p; msg := msg s; err := err s; running := running s;
     connected := connected s; connThrot := connThrot s;
     closeChan := closeChan s; transactions := transactions s;
     closedChan := closedChan s |}.

Definition set_msg_err (s : state) (m : option Message) (e : error) : state :=
  {| at_pc := at_pc s; msg := m; err := e; running := running s;
     connected := connected s; connThrot := connThrot s;
     closeChan := closeChan s; transactions := transactions s;
     closedChan := closedChan s |}.

Definition set_connected (s : state) (c : bool) : state :=
  {| at_pc := at_pc s; msg := msg s; err := err s; running := running s;
     connected := c; connThrot := connThrot s;
     closeChan := closeChan s; transactions := transactions s;
     closedChan := closedChan s |}.

Definition set_connThrot (s : state) (t : throttle.Type') : state :=
  {| at_pc := at_pc s; msg := msg s; err := err s; running := running s;
     connected := connected s; connThrot := t;
     closeChan := closeChan s; transactions := transactions s;
     closedChan := closedChan s |}.

(** [r.connThrot.Retry()] at a program point: [quit] is where the loop
    goes when it reports the shutdown ([return]), [again] where it
    goes after the wait. *)
Definition retry (s : state) (ok : bool) (again : pc) : option state :=
  let '(ok', t) := throttle.Retry (closeChan s) (connThrot s) in
  if decide (ok = ok')
  then Some (goto (set_connThrot s t) (if ok then again else L105))
  else None.

Definition reset (s : state) : state :=
  set_connThrot s (throttle.Reset (connThrot s)).

(** Lines 165-186: what the loop does with [msg] and [err] once the
    reconnect block is behind it. *)
Definition L166 (s : state) : state :=
  if decide (err s = Some ErrTypeClosed) then goto s L105
  else if decide (err s <> None \/ msg s = None) then goto s L175
  else goto s L180.

Definition step (r : Reader) (s : state) (e : event) : option state :=
  match e, at_pc s with
  (* CloseAsync, lines 234-239 *)
  | CloseAsync_cas, _ =>
      if running s
      then Some {| at_pc := at_pc s; msg := msg s; err := err s;
                   running := false; connected := connected s;
                   connThrot := connThrot s; closeChan := closeChan s;
                   transactions := transactions s;
                   closedChan := closedChan s |}
      else None
  | CloseAsync_close, _ =>
      if negb (running s) && negb (closeChan s)
      then Some {| at_pc := at_pc s; msg := msg s; err := err s;
                   running := running s; connected := connected s;
                   connThrot := connThrot s; closeChan := true;
                   transactions := transactions s;
                   closedChan := closedChan s |}
      else None
  (* lines 116-130 *)
  | Connect e, L117 =>
      Some (match e with
            | Some ErrTypeClosed => goto s L105
            | Some _ => goto s L123
            | None => goto s L127
            end)
  | Retry ok, L123 => retry s ok L117
  (* lines 127-132 *)
  | Reset, L127 => Some (goto (set_connected (reset s) true) L134)
  (* line 134 *)
  | LoadRunning b, L134 =>
      if decide (b = running s)
      then Some (goto s (if b then L135 else L105))
      else None
  (* lines 135-141 *)
  | Read m e, L135 =>
      let s' := set_msg_err s m e in
      Some (if decide (e = Some ErrNotConnected)
            then goto (set_connected s' false) L143
            else L166 s')
  (* line 143 *)
  | LoadRunning b, L143 =>
      if decide (b = running s)
      then Some (if b then goto s L144 else L166 s)
      else None
  (* lines 144-155 *)
  | Connect e, L144 =>
      let s' := set_msg_err s (msg s) e in
      Some (match e with
            | Some ErrTypeClosed => goto s' L105
            | Some _ => goto s' L153
            | None => goto s' L156
            end)
  | Retry ok, L153 => retry s ok L143
  (* lines 156-161 *)
  | Read m e, L156 =>
      let s' := set_msg_err s m e in
      Some (if decide (e <> Some ErrNotConnected)
            then goto (set_connected s' true) L159
            else goto s' L143)
  | Reset, L159 => Some (L166 (reset s))
  (* lines 175-178 *)
  | Retry ok, L175 => retry s ok L134
  (* line 180 *)
  | Reset, L180 => Some (goto (reset s) L189)
  (* lines 189-193 *)
  | Send ts, L189 =>
      match msg s with
      | Some m =>
          if decide (ts = NewTransaction m (responses r))
          then Some (goto s L195)
          else None
      | None => None
      end
  | CloseChan, L189 => if closeChan s then Some (goto s L105) else None
  (* lines 195-216 *)
  | Recv res, L195 =>
      Some (if decide (Error res <> None \/ SkipAck res = false)
            then goto s (L206 res)
            else goto s L134)
  | RecvNotOpen, L195 => Some (goto s L105)
  | CloseChan, L195 => if closeChan s then Some (goto s L105) else None
  | Acknowledge arg ret, L206 res =>
      if decide (arg = Error res)
      then Some (goto (set_msg_err s (msg s) ret) L134)
      else None
  (* lines 104-113 *)
  | WaitForClose e, L105 =>
      Some (match e with
            | Some _ => s
            | None => goto (set_connected s false) L111
            end)
  | CloseTransactions, L111 =>
      Some {| at_pc := L112; msg := msg s; err := err s;
              running := running s; connected := connected s;
              connThrot := connThrot s; closeChan := closeChan s;
              transactions := true; closedChan := closedChan s |}
  | CloseClosedChan, L112 =>
      Some {| at_pc := Returned; msg := msg s; err := err s;
              running := running s; connected := connected s;
              connThrot := connThrot s; closeChan := closeChan s;
              transactions := transactions s; closedChan := true |}
  | _, _ => None
  end.

(** [NewReader] starts the loop on a running, unconnected reader. *)
Definition init : state :=
  {| at_pc := L117; msg := None; err := None; running := true;
     connected := false; connThrot := throttle.New 0;
     closeChan := false; transactions := false; closedChan := false |}.

Fixpoint run (r : Reader) (s : state) (tr : list event) : option state :=
  match tr with
  | [] => Some s
  | e :: tr' =>
      match step r s e with
      | Some s' => run r s' tr'
      | None => None
      end
  end.

(** [loop], started by [NewReader], along a trace of its events. *)
Definition loop (r : Reader) (tr : list event) : option state :=
  run r init tr.

(** The loop has left its [for] statements and runs the deferred
    function. *)
Definition returned (p : pc) : bool :=
  match p with
  | L105 | L111 | L112 | Returned => true
  | _ => false
  end.

Definition is_Read (e : event) : bool :=
  match e with Read _ _ => true | _ => false end.

End Reader.

(** ** internal/batch: the error of a batch *)

Module batch.
Import types.

(** Modelled from the spec: internal/batch is not among the sources
    (only its use in batcher_test.go is).  A BatchError is a failure
    scoped to one batch: a general error and, by Part index, the
    error of each Part that failed; an index that is not listed is a
    success. *)
Record Error : Type := mkError { general : Err; failed : gmap nat Err }.

(** Modelled from the spec: [NewError(payload, err)] lists no index. *)
Definition NewError (payload : Message) (err : Err) : Error :=
  {| general := err; failed := ∅ |}.

(** Modelled from the spec: [b.Failed(i, err)] lists index [i]. *)
Definition Failed (i : nat) (err : Err) (b : Error) : Error :=
  {| general := general b; failed := <[i := err]> (failed b) |}.

End batch.

(** ** The Batcher *)

Module Batcher.
Import types.

(** Modelled from the spec: the resolution of a Transaction is nil, a
    plain error, or a BatchError (section 9: Ok, WholeError,
    PartialErrors). *)
Inductive Resolution : Type :=
| Ok
| WholeError (e : Err)
| PartialErrors (b : batch.Error).

(** Modelled from the spec: the release Policy of section 4.5.  A
    count or a byte-size trigger of 0 is switched off; [Period] tells
    whether a period timer runs; [Check] is the predicate evaluator,
    a collaborator the spec leaves opaque. *)
Record Policy : Type := mkPolicy {
  Count : nat;
  ByteSize : nat;
  Period : bool;
  Check : Message -> bool
}.

(** Modelled from the spec: an outbound Transaction wraps the
    accumulated Batch; its fan-out resolver knows the originating
    Transactions in the order of their Parts in that Batch. *)
Record Outbound : Type := mkOutbound {
  Batch : Message;
  fanout : list Transaction
}.

(** Modelled from the spec: what the Batcher does towards the outside. *)
Inductive output : Type :=
| Emit (o : Outbound)     (* an outbound Transaction is sent downstream *)
| ReportClosed.           (* the Batcher reports closed *)

(** Modelled from the spec: the Batch Policy state of section 3 (the
    pending Parts and the originating Transactions recorded for them),
    what the Batcher has done so far, and whether it has closed. *)
Record state : Type := mkState {
  pending : Message;
  origins : list Transaction;
  out : list output;
  closed : bool
}.

(** Modelled from the spec: what the Batcher waits for (section 5): a
    Transaction, the period timer, or the shutdown. *)
Inductive event : Type :=
| Inbound (t : Transaction)   (* a Transaction arrives *)
| Tick                        (* the period timer fires *)
| Close.                      (* shutdown *)

(** Modelled from the spec: the accumulated byte size. *)
Definition byte_size (b : Message) : nat :=
  foldr (fun p n => String.length p + n) 0 b.

(** Modelled from the spec: the Policy triggers on the accumulated
    Part count, the accumulated byte size, or the predicate. *)
Definition triggers (p : Policy) (b : Message) : bool :=
  (0 <? Count p) && (Count p <=? length b)
  || (0 <? ByteSize p) && (ByteSize p <=? byte_size b)
  || Check p b.

(** Modelled from the spec: a release emits an outbound Transaction
    that wraps the accumulated Batch and resets the pending state;
    with nothing pending there is nothing to emit. *)
Definition flush (s : state) : state :=
  match pending s with
  | [] => s
  | _ :: _ =>
      {| pending := []; origins := [];
         out := out s ++ [Emit {| Batch := pending s; fanout := origins s |}];
         closed := closed s |}
  end.

(** Modelled from the spec: section 4.5.  On an inbound Transaction
    the Batcher appends the Parts of its Payload to the pending Batch,
    records the Transaction, and releases if the Policy triggers; the
    period timer releases whatever is pending; on shutdown a non-empty
    pending batch is flushed before the Batcher reports closed.  A
    closed Batcher takes nothing. *)
Definition step (p : Policy) (s : state) (e : event) : state :=
  if closed s then s else
  match e with
  | Inbound t =>
      let s' := {| pending := pending s ++ Payload t;
                   origins := origins s ++ [t];
                   out := out s; closed := false |} in
      if triggers p (pending s') then flush s' else s'
  | Tick => if Period p then flush s else s
  | Close =>
      let s' := flush s in
      {| pending := pending s'; origins := origins s';
         out := out s' ++ [ReportClosed]; closed := true |}
  end.

Definition init : state :=
  {| pending := []; origins := []; out := []; closed := false |}.

Definition run (p : Policy) (s : state) (evs : list event) : state :=
  foldl (step p) s evs.

(** The outbound Transactions among the outputs. *)
Definition emitted (s : state) : list Outbound :=
  omap (fun x => match x with Emit o => Some o | ReportClosed => None end)
       (out s).

(** Modelled from the spec: the error listed for the first failed
    index among the [n] indices from [start] on, nil if none is. *)
Fixpoint first_failed (m : gmap nat Err) (start n : nat) : error :=
  match n with
  | 0 => None
  | S n' =>
      match m !! start with
      | Some e => Some e
      | None => first_failed m (S start) n'
      end
  end.

(** Modelled from the spec: what an originating Transaction that owns
    the [n] indices from [start] on is resolved with. *)
Definition outcome (res : Resolution) (start n : nat) : error :=
  match res with
  | Ok => None
  | WholeError e => Some e
  | PartialErrors b => first_failed (batch.failed b) start n
  end.

(** Modelled from the spec: the fan-out.  Each originating Transaction
    owns the positions of its Parts in the combined Batch and is
    resolved once. *)
Fixpoint fan_out (res : Resolution) (start : nat) (ts : list Transaction)
    : list (Transaction * error) :=
  match ts with
  | [] => []
  | t :: ts' =>
      (t, outcome res start (length (Payload t)))
      :: fan_out res (start + length (Payload t)) ts'
  end.

(** Modelled from the spec: the resolution of an outbound Transaction,
    fanned out over the Transactions of its table. *)
Definition resolve (o : Outbound) (res : Resolution)
    : list (Transaction * error) :=
  fan_out res 0 (fanout o).

(** A policy with a count trigger only. *)
Definition count_policy (c : nat) : Policy :=
  {| Count := c; ByteSize := 0; Period := false; Check := fun _ => false |}.

End Batcher.

(** ** The Batcher and the resolutions that come from downstream *)

Module BatcherDownstream.
Import types Batcher.

(** Modelled from the spec: what happens to a Batcher is an event of
    its own (section 5) or, section 4.5, "the outbound Transaction
    resolves": the stage downstream resolves, with [res], the
    outbound Transaction that the Batcher emitted as its [i]-th. *)
Inductive action : Type :=
| Do (e : event)
| Resolved (i : nat) (res : Resolution).

(** Modelled from the spec: the Batcher, the outbound Transactions
    that have resolved, and the resolutions that the Batcher has
    delivered to the originating Transactions, in order. *)
Record system : Type := mkSystem {
  batcher : state;
  resolved : list nat;
  results : list (Transaction * error)
}.

(** Modelled from the spec: section 4.5.  The resolution of an
    outbound Transaction is fanned out over the Transactions of its
    table; the resolution of an outbound Transaction that was not
    emitted reaches nothing. *)
Definition perform (p : Policy) (y : system) (a : action) : system :=
  match a with
  | Do e =>
      {| batcher := step p (batcher y) e; resolved := resolved y;
         results := results y |}
  | Resolved i res =>
      match emitted (batcher y) !! i with
      | Some o =>
          {| batcher := batcher y; resolved := resolved y ++ [i];
             results := results y ++ resolve o res |}
      | None => y
      end
  end.

Definition start : system :=
  {| batcher := init; resolved := []; results := [] |}.

Definition perform_all (p : Policy) (acts : list action) : system :=
  foldl (perform p) start acts.

(** The events of the Batcher among the actions. *)
Definition events (acts : list action) : list event :=
  omap (fun a => match a with Do e => Some e | Resolved _ _ => None end) acts.

(** The outbound Transactions that downstream resolves, in order. *)
Definition resolutions (acts : list action) : list nat :=
  omap (fun a => match a with Resolved i _ => Some i | Do _ => None end) acts.

(** The outbound Transactions that were emitted and have not
    resolved. *)
Definition waiting (y : system) : list Outbound :=
  omap (fun i => if decide (i ∈ resolved y) then None
                 else emitted (batcher y) !! i)
       (seq 0 (length (emitted (batcher y)))).

End BatcherDownstream.

(** ** The message model: parts in a store, copy-on-write messages *)

Module message.

Section Parts.
(** The structured (JSON-like) view of a payload and its parser and
    serialiser are collaborators of the message model. *)
Variable Structured : Type.
Variable parse : string -> option Structured.
Variable marshal : Structured -> string.

(** Modelled from the spec: lib/message is not among the sources.  A
    Part is a byte payload, a mapping of metadata keys to values and
    a cached structured view of the payload (section 3). *)
Record Part : Type := mkPart {
  data : string;
  metadata : gmap string string;
  structured : option Structured
}.

(** Modelled from the spec: a new Part has its bytes and nothing else. *)
Definition NewPart (b : string) : Part :=
  {| data := b; metadata := ∅; structured := None |}.

(** Modelled from the spec: Parts are objects that several holders can
    point to; the store maps the locations in use to their Parts. *)
Definition loc : Type := nat.
Definition store : Type := gmap loc Part.

(** Modelled from the spec: the mutations of a Part.  Setting the
    bytes invalidates the cached structured view; setting the
    structured view makes the bytes its serialisation. *)
Inductive mutation : Type :=
| SetBytes (b : string)
| SetStructured (v : Structured)
| MetaSet (k v : string)
| MetaDelete (k : string).

Definition mutate (p : Part) (mu : mutation) : Part :=
  match mu with
  | SetBytes b =>
      {| data := b; metadata := metadata p; structured := None |}
  | SetStructured v =>
      {| data := marshal v; metadata := metadata p; structured := Some v |}
  | MetaSet k v =>
      {| data := data p; metadata := <[k := v]> (metadata p);
         structured := structured p |}
  | MetaDelete k =>
      {| data := data p; metadata := delete k (metadata p);
         structured := structured p |}
  end.

(** Modelled from the spec: the lazily parsed structured view. *)
Definition view_structured (p : Part) : option Structured :=
  match structured p with
  | Some v => Some v
  | None => parse (data p)
  end.

(** Modelled from the spec: a Message is a handle on a Part; the
    handle knows whether the Part is its own ([partCopied]) or is
    shared with other holders.  (public/x/service's Message, of
    which only message_test.go is among the sources.) *)
Record Message : Type := mkMessage { part : loc; partCopied : bool }.

(** Modelled from the spec: wrapping a Part that someone else holds;
    the Part is shared. *)
Definition newMessageFromPart (l : loc) : Message :=
  {| part := l; partCopied := false |}.

Definition alloc (st : store) (p : Part) : store * loc :=
  let l := fresh (dom st) in (<[l := p]> st, l).

(** Modelled from the spec: a Message on a new Part of its own. *)
Definition NewMessage (st : store) (content : string) : store * Message :=
  let '(st', l) := alloc st (NewPart content) in
  (st', {| part := l; partCopied := true |}).

(** Modelled from the spec: copy-on-write duplication.  [Copy] hands
    out a second handle on the same Part, which does not own it; the
    receiver is left as it is. *)
Definition Copy (m : Message) : Message :=
  {| part := part m; partCopied := false |}.

(** Modelled from the spec: before its first mutation a handle on a
    shared Part takes a duplicate of the Part for itself. *)
Definition ensureCopied (st : store) (m : Message) : store * Message :=
  if partCopied m then (st, m)
  else
    match st !! part m with
    | Some p =>
        let '(st', l) := alloc st p in
        (st', {| part := l; partCopied := true |})
    | None => (st, m)
    end.

(** Modelled from the spec: a mutation through a handle. *)
Definition apply (st : store) (m : Message) (mu : mutation)
    : store * Message :=
  let '(st', m') := ensureCopied st m in
  (alter (fun p => mutate p mu) (part m') st', m').

(** Modelled from the spec: what a handle shows. *)
Definition read (st : store) (m : Message) : option Part := st !! part m.

Definition AsBytes (st : store) (m : Message) : option string :=
  data <$> read st m.

Definition AsStructured (st : store) (m : Message) : option Structured :=
  read st m ≫= view_structured.

Definition MetaGet (st : store) (m : Message) (k : string) : option string :=
  read st m ≫= fun p => metadata p !! k.

(** Two holders, the original and the copy, mutate in any order. *)
Inductive holder : Type := original | copy.

Record world : Type := mkWorld {
  heap : store;
  orig : Message;
  dup : Message
}.

Definition act (w : world) (a : holder * mutation) : world :=
  match a.1 with
  | original =>
      let '(st, m) := apply (heap w) (orig w) a.2 in
      {| heap := st; orig := m; dup := dup w |}
  | copy =>
      let '(st, m) := apply (heap w) (dup w) a.2 in
      {| heap := st; orig := orig w; dup := m |}
  end.

Definition acts (w : world) (prog : list (holder * mutation)) : world :=
  foldl act w prog.

(** The mutations a holder made in a program. *)
Definition by_holder (h : holder) (prog : list (holder * mutation))
    : list mutation :=
  omap (fun a => match a.1, h with
                 | original, original | copy, copy => Some a.2
                 | _, _ => None
                 end) prog.

(** The mutations that the original made before the first mutation of
    the copy. *)
Fixpoint before_copy (prog : list (holder * mutation)) : list mutation :=
  match prog with
  | (original, mu) :: prog' => mu :: before_copy prog'
  | _ => []
  end.

(** The writes of the original that go to the Part it shares with the
    copy: those of an original that owns its Part, as long as the copy
    has not taken a duplicate. *)
Definition shared_writes (m : Message) (prog : list (holder * mutation))
    : list mutation :=
  if partCopied m then before_copy prog else [].

End Parts.

Arguments mkPart {Structured}.
Arguments data {Structured}.
Arguments metadata {Structured}.
Arguments structured {Structured}.
Arguments NewPart {Structured}.
Arguments SetBytes {Structured}.
Arguments SetStructured {Structured}.
Arguments MetaSet {Structured}.
Arguments MetaDelete {Structured}.
Arguments mutate {Structured}.
Arguments view_structured {Structured}.
Arguments alloc {Structured}.
Arguments NewMessage {Structured}.
Arguments ensureCopied {Structured}.
Arguments apply {Structured}.
Arguments read {Structured}.
Arguments AsBytes {Structured}.
Arguments AsStructured {Structured}.
Arguments MetaGet {Structured}.
Arguments mkWorld {Structured}.
Arguments heap {Structured}.
Arguments orig {Structured}.
Arguments dup {Structured}.
Arguments act {Structured}.
Arguments acts {Structured}.
Arguments by_holder {Structured}.
Arguments before_copy {Structured}.
Arguments shared_writes {Structured}.

End message.

(** ** lib/input/reader: the KafkaBalanced adapter *)

Module KafkaBalanced.
Import types.

(** sarama.ConsumerMessage: the fields that move the adapter's state
    and the payload.  The metadata that lines 247-255 attach to the
    part (the key, the timestamp, the headers) is outside [Part], which
    is the content of a part only. *)
Record ConsumerMessage : Type := mkConsumerMessage {
  Value : string;
  Topic : string;
  Partition : Z;          (* int32 *)
  Offset : Z              (* int64 *)
}.

(** A *cluster.Consumer is identified by a number; [None] is nil. *)
Definition Consumer : Type := nat.

Record KafkaBalancedConfig : Type := mkConfig {
  Addresses : list string;
  Topics : list string;
  TLS_Enabled : bool
}.

Record KafkaBalanced : Type := mkKafkaBalanced {
  consumer : option Consumer;
  offsetLastCommitted : option Z;      (* None is the zero time.Time *)
  offsets : gmap string (gmap Z Z);
  addresses : list string;
  topics : list string
}.

Definition comma : Ascii.ascii := Ascii.ascii_of_nat 44.

(** strings.Split(s, sep) for a separator of one byte: the pieces of
    [s] between the separators; one piece more than there are
    separators. *)
Fixpoint Split (s : string) (sep : Ascii.ascii) : list string :=
  match s with
  | EmptyString => [EmptyString]
  | String c s' =>
      if decide (c = sep) then EmptyString :: Split s' sep
      else match Split s' sep with
           | piece :: pieces => String c piece :: pieces
           | [] => [String c EmptyString]
           end
  end.

(** Lines 109-115 and 116-122: every entry is split at its commas and
    the pieces that are not empty are kept, in order. *)
Definition split_entries (entries : list string) : list string :=
  flat_map (fun entry =>
              List.filter (fun piece => bool_decide (0 < String.length piece))
                          (Split entry comma))
           entries.

(** Lines 92-128.  [tls] is what conf.TLS.Get() returns and [version]
    what sarama.ParseKafkaVersion returns, as far as their errors go. *)
Definition NewKafkaBalanced (conf : KafkaBalancedConfig)
    (tls version : error) : KafkaBalanced + Err :=
  match (if TLS_Enabled conf then tls else None) with
  | Some e => inr e
  | None =>
      match version with
      | Some e => inr e
      | None =>
          inl {| consumer := None; offsetLastCommitted := None;
                 offsets := ∅;
                 addresses := split_entries (Addresses conf);
                 topics := split_entries (Topics conf) |}
      end
  end.

Definition set_consumer (k : KafkaBalanced) (c : option Consumer) : KafkaBalanced :=
  {| consumer := c; offsetLastCommitted := offsetLastCommitted k;
     offsets := offsets k; addresses := addresses k; topics := topics k |}.

(** Lines 133-150. *)
Definition closeClients (k : KafkaBalanced) : KafkaBalanced :=
  match consumer k with
  | Some _ => set_consumer k None
  | None => k
  end.

(** Lines 155-213.  [new] is what cluster.NewConsumer returns if it is
    called. *)
Definition Connect (k : KafkaBalanced) (new : Consumer + Err)
    : KafkaBalanced * error :=
  match consumer k with
  | Some _ => (k, None)
  | None =>
      match new with
      | inr e => (k, Some e)
      | inl c => (set_consumer k (Some c), None)
      end
  end.

(** Lines 215-223.  The inner map is created on the first offset of a
    topic and updated in place afterwards. *)
Definition setOffset (topic : string) (partition offset : Z)
    (k : KafkaBalanced) : KafkaBalanced :=
  let topicMap := default ∅ (offsets k !! topic) in
  {| consumer := consumer k; offsetLastCommitted := offsetLastCommitted k;
     offsets := <[topic := <[partition := offset]> topicMap]> (offsets k);
     addresses := addresses k; topics := topics k |}.

(** Lines 226-259.  [recv] is what the receive from consumer.Messages()
    gives if the adapter gets there: a message, or [None] when the
    channel is closed. *)
Definition Read (k : KafkaBalanced) (recv : option ConsumerMessage)
    : KafkaBalanced * (option Message * error) :=
  match consumer k with
  | None => (k, (None, Some ErrNotConnected))
  | Some _ =>
      match recv with
      | None => (closeClients k, (None, Some ErrNotConnected))
      | Some data =>
          (setOffset (Topic data) (Partition data) (Offset data) k,
           (Some [Value data], None))
      end
  end.

(** What one call of [Acknowledge] did to the consumer and returned. *)
Record Acknowledged : Type := mkAcknowledged {
  marked : list (string * Z * Z);   (* MarkPartitionOffset(topic, part, offset, "") *)
  committed : bool;                 (* CommitOffsets() was called *)
  returned : error
}.

(** Lines 265-269: one mark for every entry of the table.  Go ranges
    over a map in no specified order; the order of this list has no
    meaning. *)
Definition marks (table : gmap string (gmap Z Z)) : list (string * Z * Z) :=
  flat_map (fun tv => (fun po => (tv.1, po.1, po.2)) <$> map_to_list tv.2)
           (map_to_list table).

(** Lines 262-294.  [within] is the outcome of the comparison of lines
    275-276 (the commit period has not passed since the last commit),
    [commit] what CommitOffsets() returns if it is called, [now] what
    time.Now() returns if it is called. *)
Definition Acknowledge (k : KafkaBalanced) (err : error) (within : bool)
    (commit : error) (now : Z) : KafkaBalanced * Acknowledged :=
  let marked :=
    match err, consumer k with
    | None, Some _ => marks (offsets k)
    | _, _ => []
    end in
  if within then (k, mkAcknowledged marked false None)
  else
    let commitErr :=
      match consumer k with
      | Some _ => commit
      | None => Some ErrNotConnected
      end in
    let k' :=
      match commitErr with
      | None =>
          {| consumer := consumer k; offsetLastCommitted := Some now;
             offsets := offsets k; addresses := addresses k;
             topics := topics k |}
      | Some _ => k
      end in
    (k', mkAcknowledged marked (bool_decide (consumer k <> None)) commitErr).

(** Lines 302-304. *)
Definition WaitForClose (k : KafkaBalanced) : error := None.

(** The calls that the wrapper and its owner make on the adapter, each
    with the answers of the adapter's environment.  [CloseAsync]
    (lines 297-299) runs [closeClients]. *)
Inductive call : Type :=
| CallConnect (new : Consumer + Err)
| CallRead (recv : option ConsumerMessage)
| CallAcknowledge (err : error) (within : bool) (commit : error) (now : Z)
| CallCloseAsync.

Definition apply_call (k : KafkaBalanced) (c : call) : KafkaBalanced :=
  match c with
  | CallConnect new => (Connect k new).1
  | CallRead recv => (Read k recv).1
  | CallAcknowledge err within commit now => (Acknowledge k err within commit now).1
  | CallCloseAsync => closeClients k
  end.

Definition apply_calls (k : KafkaBalanced) (cs : list call) : KafkaBalanced :=
  foldl apply_call k cs.

(** The messages that the calls of [Read] among [cs] returned. *)
Fixpoint delivered (k : KafkaBalanced) (cs : list call) : list ConsumerMessage :=
  match cs with
  | [] => []
  | c :: cs' =>
      match c, consumer k with
      | CallRead (Some data), Some _ => [data]
      | _, _ => []
      end ++ delivered (apply_call k c) cs'
  end.

(** The offset that the table holds for a topic and a partition. *)
Definition offset_of (table : gmap string (gmap Z Z))
    (topic : string) (partition : Z) : option Z :=
  table !! topic ≫= fun topicMap => topicMap !! partition.

End KafkaBalanced.

(** ** internal/old/output: an output behind processing pipelines *)

Module WithPipeline.
Import types.

Section Streamed.
(** The outputs that are wrapped, and the pipelines. *)
Variables Output Pipeline : Type.

(** output.Streamed as far as wrapping goes: an output, or
    [&WithPipeline{out, pipe}]. *)
Inductive Streamed : Type :=
| Plain (o : Output)
| WithPipeline (out : Streamed) (pipe : Pipeline).

(** What [out.Consume(...)] returns for the output that is about to
    be wrapped. *)
Variable Consume_returns : Streamed -> error.

(** What [Connected] of an output that is not a wrapper returns. *)
Variable Output_Connected : Output -> bool.

(** Lines 24-37.  [pipeConstructor] is what the constructor returns
    when it is called. *)
Definition WrapWithPipeline (out : Streamed) (pipeConstructor : Pipeline + Err)
    : Streamed + Err :=
  match pipeConstructor with
  | inr err => inr err
  | inl pipe =>
      match Consume_returns out with
      | Some err => inr err
      | None => inl (WithPipeline out pipe)
      end
  end.

(** Lines 40-48: the constructors are taken from the last to the
    first, and the first failure is returned. *)
Definition WrapWithPipelines (out : Streamed)
    (pipeConstructors : list (Pipeline + Err)) : Streamed + Err :=
  foldr (fun pipeConstructor acc =>
           match acc with
           | inr err => inr err
           | inl out' => WrapWithPipeline out' pipeConstructor
           end)
        (inl out) pipeConstructors.

(** Lines 60-62. *)
Fixpoint Connected (i : Streamed) : bool :=
  match i with
  | Plain o => Output_Connected o
  | WithPipeline out _ => Connected out
  end.

(** The way of a Transaction: [Consume] (lines 54-56) hands the
    channel to the pipeline of the wrapper, and what that pipeline
    emits is consumed by the wrapped output (line 30). *)
Fixpoint route (i : Streamed) : list Pipeline * Output :=
  match i with
  | Plain o => ([], o)
  | WithPipeline out pipe => (pipe :: (route out).1, (route out).2)
  end.

End Streamed.

Arguments Plain {Output Pipeline}.
Arguments WithPipeline {Output Pipeline}.
Arguments WrapWithPipeline {Output Pipeline}.
Arguments WrapWithPipelines {Output Pipeline}.
Arguments Connected {Output Pipeline}.
Arguments route {Output Pipeline}.

End WithPipeline.



Module LineWriterExamples.
Import types LineWriter.

Definition w0 : LineWriter := NewLineWriter "" false.
Definition t1 : Transaction := NewTransaction ["foo"] 7.

Example rendered_single :
  rendered w0 ["foo"] = "foo" +:+ newline.
Proof. reflexivity. Qed.

Example rendered_multi :
  rendered w0 ["a"; "b"] = "a" +:+ newline +:+ "b" +:+ newline +:+ newline.
Proof. reflexivity. Qed.

Example one_round :
  run w0 init [LoadRunning true; Recv t1; Fprintf (rendered w0 ["foo"]) None;
               Send 7 (response.NewError None)]
  = Some init.
Proof. reflexivity. Qed.

End LineWriterExamples.

(** ** The rounds of LineWriter.loop *)

Module LineWriterProofs.
Import types LineWriter.

(** The events that touch a Transaction: taking it, writing it,
    resolving it. *)
Definition io (e : event) : bool :=
  match e with
  | Recv _ | Fprintf _ _ | Send _ _ => true
  | _ => false
  end.

Definition obs (tr : list event) : list event := List.filter io tr.

#[local] Arguments rendered : simpl never.

(** One complete turn of the loop body for a Transaction whose write
    returned [err]. *)
Definition round (w : LineWriter) (p : Transaction * error) : list event :=
  [Recv p.1; Fprintf (rendered w (Payload p.1)) p.2;
   Send (ResponseChan p.1) (response.NewError p.2)].

Definition rounds (w : LineWriter) (ps : list (Transaction * error)) : list event :=
  flat_map (round w) ps.

(** What the loop holds of an unfinished turn at each program point.
    After [return] an unfinished turn can only have been left at the
    select of line 148, through its closeChan case. *)
Definition in_flight (w : LineWriter) (s : state) (tail : list event) : Prop :=
  match at_pc s with
  | L113 | L116 => tail = []
  | L130 ts => tail = [Recv ts]
  | L148 ts err => tail = [Recv ts; Fprintf (rendered w (Payload ts)) err]
  | L100 | L104 | Returned =>
      tail = [] \/
      (closeChan s = true /\
       exists ts err, tail = [Recv ts; Fprintf (rendered w (Payload ts)) err])
  end.

Lemma rounds_snoc w ps p : rounds w (ps ++ [p]) = rounds w ps ++ round w p.
Proof. unfold rounds. rewrite flat_map_app. simpl. by rewrite ?app_nil_r. Qed.

Lemma obs_app tr1 tr2 : obs (tr1 ++ tr2) = obs tr1 ++ obs tr2.
Proof. apply List.filter_app. Qed.

Lemma writer_run_app w s tr1 tr2 :
  run w s (tr1 ++ tr2) =
  match run w s tr1 with Some s' => run w s' tr2 | None => None end.
Proof.
  revert s. induction tr1 as [|e tr1 IH]; intros s; simpl; [done|].
  destruct (step w s e); [apply IH | done].
Qed.

Ltac close_flight ps :=
  rewrite ?app_nil_r; exists ps; eexists;
  split; [first [reflexivity | symmetry; apply app_nil_r] |];
  simpl;
  first [reflexivity | left; reflexivity
        | right; split; [reflexivity|]; eexists _, _; reflexivity].

Lemma step_in_flight w s e s' ps tail :
  in_flight w s tail -> step w s e = Some s' ->
  exists ps' tail',
    rounds w ps ++ tail ++ obs [e] = rounds w ps' ++ tail' /\
    in_flight w s' tail'.
Proof.
  destruct s as [p r cc cd]. unfold in_flight, step, deferred, goto. simpl.
  intros Hfl Hstep.
  destruct e, p; simpl in *;
    repeat match goal with
           | H : context [decide ?P] |- _ => destruct (decide P)
           | H : context [if ?b then _ else _] |- _ => destruct b eqn:?
           end;
    simplify_eq; simpl;
    try (destruct Hfl as [->|[? (?&?&->)]]; simplify_eq);
    try (close_flight ps; fail).
  (* the send of line 149 completes a round *)
  match goal with H : _ /\ _ |- _ => destruct H as [-> ->] end.
  exists (ps ++ [(ts, err)]), []. split; [|done].
  by rewrite rounds_snoc, app_nil_r.
Qed.

(** Every run of the loop is a sequence of complete rounds followed by
    what is in flight. *)
Lemma run_in_flight w tr : forall s s' ps tail,
  in_flight w s tail -> run w s tr = Some s' ->
  exists ps' tail',
    rounds w ps ++ tail ++ obs tr = rounds w ps' ++ tail' /\
    in_flight w s' tail'.
Proof.
  induction tr as [|e tr IH]; intros s s' ps tail Hfl Hrun; simpl in Hrun.
  - simplify_eq. exists ps, tail. by rewrite app_nil_r.
  - destruct (step w s e) as [s1|] eqn:Hstep; [|done].
    destruct (step_in_flight _ _ _ _ ps _ Hfl Hstep) as (ps1 & tail1 & Heq & Hfl1).
    destruct (IH _ _ ps1 _ Hfl1 Hrun) as (ps2 & tail2 & Heq2 & Hfl2).
    exists ps2, tail2. split; [|done].
    change (e :: tr) with ([e] ++ tr).
    rewrite obs_app, !app_assoc, <- (app_assoc (rounds w ps)), Heq.
    by rewrite <- app_assoc.
Qed.

Lemma loop_rounds w tr s :
  run w init tr = Some s ->
  exists ps tail, obs tr = rounds w ps ++ tail /\ in_flight w s tail.
Proof.
  intros Hrun.
  destruct (run_in_flight w tr init s [] [] eq_refl Hrun) as (ps & tail & Heq & Hfl).
  by exists ps, tail.
Qed.

(** The writer reports closed only from the end of the deferred
    function. *)
Lemma closed_returned_step w s e s' :
  (closedChan s = true -> at_pc s = Returned) ->
  step w s e = Some s' ->
  closedChan s' = true -> at_pc s' = Returned.
Proof.
  destruct s as [p r cc cd]. unfold step, deferred, goto. simpl.
  intros HI Hstep.
  destruct e, p; simpl in *;
    repeat match goal with
           | H : context [decide ?P] |- _ => destruct (decide P)
           | H : context [if ?b then _ else _] |- _ => destruct b eqn:?
           end;
    simplify_eq; simpl; try done; intros ->; by specialize (HI eq_refl).
Qed.

Lemma closed_returned w tr : forall s s',
  (closedChan s = true -> at_pc s = Returned) ->
  run w s tr = Some s' ->
  closedChan s' = true -> at_pc s' = Returned.
Proof.
  induction tr as [|e tr IH]; intros s s' HI Hrun; simpl in Hrun.
  - by simplify_eq.
  - destruct (step w s e) as [s1|] eqn:Hstep; [|done].
    eapply IH; [|done]. by eapply closed_returned_step.
Qed.

Lemma accepted_obs tr : accepted (obs tr) = accepted tr.
Proof.
  induction tr as [|e tr IH]; [done|].
  destruct e; simpl; unfold accepted in *; simpl; by rewrite ?IH.
Qed.

Lemma resolved_obs tr : resolved (obs tr) = resolved tr.
Proof.
  induction tr as [|e tr IH]; [done|].
  destruct e; simpl; unfold resolved in *; simpl; by rewrite ?IH.
Qed.

Lemma accepted_rounds w ps tail :
  accepted (rounds w ps ++ tail) = ps.*1 ++ accepted tail.
Proof.
  induction ps as [|p ps IH]; [done|].
  unfold accepted, rounds in *. simpl. f_equal. exact IH.
Qed.

Lemma resolved_rounds w ps tail :
  resolved (rounds w ps ++ tail)
  = ((fun p => (ResponseChan p.1, response.NewError p.2)) <$> ps)
    ++ resolved tail.
Proof.
  induction ps as [|p ps IH]; [done|].
  unfold resolved, rounds in *. simpl. f_equal. exact IH.
Qed.

End LineWriterProofs.

Module ReaderExamples.
Import types Reader.

Definition r0 : Reader := NewReader 3.

(** One message read, emitted, resolved with nil and acknowledged. *)
Example one_message :
  at_pc <$> run r0 init
    [Connect None; Reset; LoadRunning true; Read (Some ["foo"]) None; Reset;
     Send (NewTransaction ["foo"] 3); Recv (mkResponse None false);
     Acknowledge None None]
  = Some L134.
Proof. reflexivity. Qed.

(** A resolution of nil with SkipAck goes back to the loop head without
    Acknowledge. *)
Example skip_ack :
  at_pc <$> run r0 init
    [Connect None; Reset; LoadRunning true; Read (Some ["foo"]) None; Reset;
     Send (NewTransaction ["foo"] 3); Recv (mkResponse None true)]
  = Some L134.
Proof. reflexivity. Qed.

(** A timed-out Read waits in the throttle before the next Read. *)
Example timeout_retry :
  (fun s => (at_pc s, throttle.level (connThrot s))) <$> run r0 init
    [Connect None; Reset; LoadRunning true; Read None (Some ErrTimeout);
     Retry true]
  = Some (L134, 1).
Proof. reflexivity. Qed.

Example timeout_no_direct_read :
  run r0 init
    [Connect None; Reset; LoadRunning true; Read None (Some ErrTimeout);
     LoadRunning true]
  = None.
Proof. reflexivity. Qed.

(** A lost connection: the loop reconnects, with a wait in the throttle
    after the failed attempt, reads again and carries on with the
    message. *)
Example reconnect :
  (fun s => (at_pc s, connected s, throttle.level (connThrot s))) <$>
  loop r0
    [Connect None; Reset; LoadRunning true; Read None (Some ErrNotConnected);
     LoadRunning true; Connect (Some (ErrOther "refused")); Retry true;
     LoadRunning true; Connect None; Read (Some ["foo"]) None; Reset; Reset]
  = Some (L189, true, 0).
Proof. reflexivity. Qed.

(** A closed adapter: the loop returns and the deferred function closes
    both channels once the adapter has closed. *)
Example closed_adapter :
  (fun s => (at_pc s, transactions s, closedChan s)) <$>
  loop r0
    [Connect None; Reset; LoadRunning true; Read None (Some ErrTypeClosed);
     WaitForClose (Some ErrTimeout); WaitForClose None; CloseTransactions;
     CloseClosedChan]
  = Some (Returned, true, true).
Proof. reflexivity. Qed.

(** [CloseAsync] while the loop waits for a resolution. *)
Example shutdown_while_waiting :
  (fun s => (at_pc s, closedChan s)) <$>
  loop r0
    [Connect None; Reset; LoadRunning true; Read (Some ["foo"]) None; Reset;
     Send (NewTransaction ["foo"] 3); CloseAsync_cas; CloseAsync_close;
     CloseChan; WaitForClose None; CloseTransactions; CloseClosedChan]
  = Some (Returned, true).
Proof. reflexivity. Qed.

End ReaderExamples.

(** ** Reasoning about runs of Reader.loop *)

Module ReaderProofs.
Import types Reader.

(** The two effects of a concurrent [CloseAsync] are the only events
    that are not steps of [loop]. *)
Definition is_env (e : event) : bool :=
  match e with
  | CloseAsync_cas | CloseAsync_close => true
  | _ => false
  end.

(** The steps of [loop] in a trace. *)
Definition is_prog (e : event) : bool := negb (is_env e).

Definition prog (tr : list event) : list event := List.filter is_prog tr.

Definition is_Acknowledge (e : event) : bool :=
  match e with Acknowledge _ _ => true | _ => false end.

(** The calls on the adapter and on the throttle's wait, and the
    operations on the two channels: all that the loop does apart from
    loading [running] and resetting the throttle. *)
Definition is_call (e : event) : bool :=
  match e with
  | Connect _ | Acknowledge _ _ | Retry _ | Send _ | Recv _ => true
  | _ => false
  end.

Definition calls (tr : list event) : list event := List.filter is_call tr.

(** The condition of line 205. *)
Definition needs_ack (res : Response) : Prop :=
  Error res <> None \/ SkipAck res = false.

Definition no_Read (k : list event) : Prop :=
  Forall (fun e => is_Read e = false) k.

Lemma reader_run_app r s a b s' :
  run r s (a ++ b) = Some s' <->
  exists s1, run r s a = Some s1 /\ run r s1 b = Some s'.
Proof.
  revert s. induction a as [|e a IH]; intros s; simpl.
  - split; [eauto | by intros (? & [= ->] & ?)].
  - destruct (step r s e) as [s1|]; [apply IH|].
    split; [done | by intros (? & ? & ?)].
Qed.

Lemma run_one r s e s' : run r s [e] = Some s' <-> step r s e = Some s'.
Proof. simpl. destruct (step r s e); naive_solver. Qed.

Lemma run_snoc r s a e s' :
  run r s (a ++ [e]) = Some s' <->
  exists s1, run r s a = Some s1 /\ step r s1 e = Some s'.
Proof.
  rewrite reader_run_app. simpl. split; intros (s1 & H1 & H2); exists s1; split; try done.
  - by destruct (step r s1 e); simplify_eq.
  - by rewrite H2.
Qed.

(** An invariant that relates the state to the selected events seen so
    far carries over a stretch of the run without [Read]. *)
Section Stretch.
Variable r : Reader.
Variable sel : event -> bool.
Variable I : state -> list event -> Prop.
Hypothesis I_step : forall s o e s',
  I s o -> is_Read e = false -> step r s e = Some s' ->
  I s' (o ++ List.filter sel [e]).

Lemma stretch k : forall s o s',
  I s o -> no_Read k -> run r s k = Some s' ->
  I s' (o ++ List.filter sel k).
Proof.
  induction k as [|e k IH]; intros s o s' HI Hk Hrun; simpl in Hrun.
  - simplify_eq. by rewrite app_nil_r.
  - destruct (step r s e) as [s1|] eqn:Hstep; [|done].
    apply Forall_cons in Hk as [He Hk].
    change (e :: k) with ([e] ++ k).
    rewrite List.filter_app, app_assoc.
    eapply IH; [|done|done]. by eapply I_step.
Qed.
End Stretch.

(** Case analysis of one step from a state whose fields are variables. *)
Ltac step_cases Hstep :=
  unfold step, retry, throttle.Retry, L166, reset, goto, set_msg_err,
    set_connected, set_connThrot in Hstep; simpl in Hstep;
  repeat match type of Hstep with
         | context [decide ?P] => destruct (decide P)
         | context [match ?x with _ => _ end] => destruct x eqn:?
         end;
  simplify_eq; simpl in *.

End ReaderProofs.

(** ** From a successful Read to the next Read *)

Module ReaderAck.
Import types Reader ReaderProofs.

(** The negation of the condition of line 205. *)
Definition skips_ack (res : Response) : Prop :=
  Error res = None /\ SkipAck res = true.

Lemma needs_or_skips res : needs_ack res \/ skips_ack res.
Proof.
  unfold needs_ack, skips_ack.
  destruct (Error res) as [x|]; [left; left; congruence|].
  destruct (SkipAck res); [by right | left; by right].
Qed.

Lemma skips_not_needs res : skips_ack res -> ~ needs_ack res.
Proof. intros [H1 H2] [H3|H3]; congruence. Qed.

(** Where the loop can be, and which calls it has made, since [Read]
    returned the message [m] without error and before it reads again. *)
Definition after_read (r : Reader) (m : Message) (s : state)
    (o : list event) : Prop :=
  let tx := NewTransaction m (responses r) in
  match at_pc s with
  | L159 => o = [] /\ msg s = Some m /\ err s = None
  | L180 | L189 => o = [] /\ msg s = Some m
  | L195 => o = [Send tx]
  | L206 res => o = [Send tx; Recv res] /\ needs_ack res
  | L134 | L135 =>
      exists res,
        (skips_ack res /\ o = [Send tx; Recv res]) \/
        (needs_ack res /\
         exists ret, o = [Send tx; Recv res; Acknowledge (Error res) ret])
  | L105 | L111 | L112 | Returned => True
  | _ => False
  end.

Lemma after_read_start r s m s' :
  step r s (Read (Some m) None) = Some s' -> after_read r m s' [].
Proof.
  intros Hstep. destruct s as [p m0 e0 rn cn th cc tc cd].
  destruct p; simpl in Hstep; try done; step_cases Hstep; done.
Qed.

Lemma after_read_step r m s o e s' :
  after_read r m s o -> is_Read e = false -> step r s e = Some s' ->
  after_read r m s' (o ++ List.filter is_call [e]).
Proof.
  intros HI He Hstep. destruct s as [p m0 e0 rn cn th cc tc cd].
  unfold after_read in HI. simpl in HI.
  destruct e, p; simpl in He, Hstep; try done;
    step_cases Hstep; unfold after_read; simpl;
    rewrite ?app_nil_r; try done;
    try (destruct_and?; simplify_eq; simpl; done).
  all: try (destruct HI as [res [[? ->]|[? [ret ->]]]]; eauto 8; fail).
  all: try (destruct_and?; simplify_eq; simpl).
  all: try (match goal with H : ¬ (_ ∨ _) |- _ =>
              eexists; left; split; [|reflexivity];
              unfold skips_ack; destruct (Error res), (SkipAck res); intuition congruence
            end).
  all: try (eexists; right; split; [done|]; eexists; reflexivity).
  all: intuition congruence.
Qed.

(** C3 (amended).  In the sync source wrapper, between a successful
    [Read] and the next [Read] the wrapper emits exactly one
    Transaction carrying the message on its output channel, then
    receives that Transaction's resolution, then calls the adapter's
    [Acknowledge] with the resolved error exactly once, unless the
    resolved error is nil and SkipAck is set, in which case it does
    not call [Acknowledge]; in between it makes no other call on the
    adapter, no wait in the throttle and no other channel operation. *)
Theorem C3_read_emit_await_acknowledge r tr m k m' e' s :
  loop r (tr ++ [Read (Some m) None] ++ k ++ [Read m' e']) = Some s ->
  no_Read k ->
  exists res,
    (skips_ack res /\
     calls k = [Send (NewTransaction m (responses r)); Recv res]) \/
    (needs_ack res /\
     exists ret,
       calls k = [Send (NewTransaction m (responses r)); Recv res;
                  Acknowledge (Error res) ret]).
Proof.
  intros Hrun Hk. unfold loop in *.
  apply reader_run_app in Hrun as (s1 & _ & Hrun).
  apply reader_run_app in Hrun as (s2 & Hread & Hrun).
  apply run_snoc in Hrun as (s3 & Hrun & Hnext).
  apply run_one in Hread.
  pose proof (stretch r is_call (after_read r m) (after_read_step r m)
                k s2 [] s3 (after_read_start _ _ _ _ Hread) Hk Hrun) as HI.
  simpl in HI. unfold after_read in HI.
  destruct s3 as [p m0 e0 rn cn th cc tc cd]. simpl in *.
  destruct p; simpl in Hnext; try done.
Qed.

Definition r0 : Reader := NewReader 3.

Definition k0 : list event :=
  [Reset; Send (NewTransaction ["foo"] 3);
   Recv (mkResponse (Some (ErrOther "nack")) false);
   Acknowledge (Some (ErrOther "nack")) None; LoadRunning true].

Lemma C3_read_emit_await_acknowledge_witness :
  exists res,
    (skips_ack res /\
     calls k0 = [Send (NewTransaction ["foo"] (responses r0)); Recv res]) \/
    (needs_ack res /\
     exists ret,
       calls k0 = [Send (NewTransaction ["foo"] (responses r0)); Recv res;
                   Acknowledge (Error res) ret]).
Proof.
  eapply (C3_read_emit_await_acknowledge r0
            [Connect None; Reset; LoadRunning true] ["foo"] k0
            None (Some ErrTimeout)).
  - vm_compute. reflexivity.
  - repeat constructor.
Defined.

(** C3, as stated, fails: a resolution with a nil error and SkipAck
    set takes the loop from the emitted Transaction to the next [Read]
    without any call of [Acknowledge]. *)
Lemma C3_counterexample :
  let k := [Reset; Send (NewTransaction ["foo"] 3);
            Recv (mkResponse None true); LoadRunning true] in
  is_Some (loop r0 ([Connect None; Reset; LoadRunning true] ++
                        [Read (Some ["foo"]) None] ++ k ++
                        [Read (Some ["bar"]) None])) /\
  Forall (fun e => is_Acknowledge e = false) k.
Proof. split; [vm_compute; by eexists | repeat constructor]. Qed.

(** The steps made since the resolution [res] was received contain no
    [Acknowledge] when line 205 skips it, and otherwise start with the
    one call of [Acknowledge] on the resolved error. *)
Definition settled (res : Response) (o : list event) : Prop :=
  (skips_ack res /\ List.filter is_Acknowledge o = []) \/
  (needs_ack res /\
   exists ret rest,
     o = Acknowledge (Error res) ret :: rest /\
     List.filter is_Acknowledge rest = []).

Lemma settled_snoc res o e :
  is_Acknowledge e = false -> settled res o -> settled res (o ++ [e]).
Proof.
  intros He [[? Ho]|[? (ret & rest & -> & Ho)]]; [left|right]; split; try done.
  - rewrite List.filter_app, Ho. simpl. by rewrite He.
  - exists ret, (rest ++ [e]). split; [done|].
    rewrite List.filter_app, Ho. simpl. by rewrite He.
Qed.

(** Where the loop can be, and which steps it has made, since it
    received the resolution [res] and before it reads again. *)
Definition after_recv (res : Response) (s : state) (o : list event) : Prop :=
  match at_pc s with
  | L206 res' => res' = res /\ needs_ack res /\ o = []
  | L134 =>
      (skips_ack res /\ o = []) \/
      (needs_ack res /\ exists ret, o = [Acknowledge (Error res) ret])
  | L135 =>
      (skips_ack res /\ o = [LoadRunning true]) \/
      (needs_ack res /\
       exists ret, o = [Acknowledge (Error res) ret; LoadRunning true])
  | L105 | L111 | L112 | Returned => settled res o
  | _ => False
  end.

Lemma after_recv_start r s res s' :
  step r s (Recv res) = Some s' -> after_recv res s' [].
Proof.
  intros Hstep. destruct s as [p m0 e0 rn cn th cc tc cd].
  destruct p; simpl in Hstep; try done; step_cases Hstep;
    unfold after_recv; simpl; [done|].
  left. split; [|done].
  unfold skips_ack. destruct (Error res), (SkipAck res); intuition congruence.
Qed.

Lemma after_recv_step res r s o e s' :
  after_recv res s o -> is_Read e = false -> step r s e = Some s' ->
  after_recv res s' (o ++ List.filter is_prog [e]).
Proof.
  intros HI He Hstep. destruct s as [p m0 e0 rn cn th cc tc cd].
  unfold after_recv in HI. simpl in HI.
  destruct e, p; simpl in He, Hstep; try done;
    step_cases Hstep; unfold after_recv; simpl;
    rewrite ?app_nil_r; try done.
  all: try (by apply settled_snoc).
  all: try (destruct HI as [[? ->]|[? [ret ->]]]; simpl; unfold settled;
            eauto 8; fail).
  destruct HI as (-> & ? & ->). right. eauto.
Qed.

Lemma filter_Acknowledge_prog k :
  List.filter is_Acknowledge (List.filter is_prog k)
  = List.filter is_Acknowledge k.
Proof.
  induction k as [|e k IH]; [done|].
  destruct e; simpl; by rewrite ?IH.
Qed.

(** What the receipt of a resolution at line 196 leads to: with a nil
    error and SkipAck set the loop is back at its head (line 134);
    otherwise it stands at the call of line 206, and that call can be
    made, whatever the adapter returns, and brings it to its head. *)
Lemma after_Recv r s res s2 :
  step r s (Recv res) = Some s2 ->
  (skips_ack res -> at_pc s2 = L134) /\
  (needs_ack res ->
     at_pc s2 = L206 res /\
     forall ret, exists s',
       step r s2 (Acknowledge (Error res) ret) = Some s' /\ at_pc s' = L134).
Proof.
  intros Hstep. destruct s as [p m0 e0 rn cn th cc tc cd].
  destruct p; simpl in Hstep; try done; step_cases Hstep.
  - split; [by intros ?%skips_not_needs|]. intros _. split; [done|].
    intros ret. eexists. unfold step. simpl.
    rewrite decide_True by done. done.
  - split; [done|]. intros Hn. done.
Qed.


Definition skipped : Response := mkResponse None true.

Definition nacked : Response := mkResponse (Some (ErrOther "nack")) true.

Definition emitted_foo : list event :=
  [Connect None; Reset; LoadRunning true; Read (Some ["foo"]) None;
   Reset; Send (NewTransaction ["foo"] 3)].

Definition at_read : state :=
  {| at_pc := L135; msg := Some ["foo"]; err := None; running := true;
     connected := true; connThrot := throttle.New 0; closeChan := false;
     transactions := false; closedChan := false |}.


End ReaderAck.

(** ** A Read that times out *)

Module ReaderRetry.
Import types Reader ReaderProofs.

(** Where the loop can be, and which calls it has made, since [Read]
    returned ErrTimeout and before it reads again. *)
Definition after_timeout (s : state) (o : list event) : Prop :=
  match at_pc s with
  | L159 => o = [] /\ err s = Some ErrTimeout
  | L175 => o = []
  | L134 | L135 => o = [Retry true] /\ 0 < throttle.level (connThrot s)
  | L105 | L111 | L112 | Returned => True
  | _ => False
  end.

Lemma after_timeout_start r s m s' :
  step r s (Read m (Some ErrTimeout)) = Some s' -> after_timeout s' [].
Proof.
  intros Hstep. destruct s as [p m0 e0 rn cn th cc tc cd].
  destruct p; simpl in Hstep; try done; step_cases Hstep;
    unfold after_timeout; simpl; try done.
  all: intuition congruence.
Qed.

Lemma after_timeout_step r s o e s' :
  after_timeout s o -> is_Read e = false -> step r s e = Some s' ->
  after_timeout s' (o ++ List.filter is_call [e]).
Proof.
  intros HI He Hstep. destruct s as [p m0 e0 rn cn th cc tc cd].
  unfold after_timeout in HI. simpl in HI.
  destruct e, p; simpl in He, Hstep; try done;
    step_cases Hstep; unfold after_timeout; simpl;
    rewrite ?app_nil_r; try done.
  all: try (destruct_and?; simplify_eq; simpl; split; [done|lia]).
  all: try (destruct_and?; simplify_eq; intuition congruence).
  destruct cc; simplify_eq. simpl. split; [done|lia].
Qed.

(** C4 (amended).  When a [Read] of the sync source wrapper returns
    ErrTimeout, the wrapper does not reconnect, but before it reads
    again it waits once in the throttle ([connThrot.Retry()]), which
    grows the backoff: between the timed-out [Read] and the next
    [Read] that one [Retry] is its only call on the adapter or wait in
    the throttle (so there is no [Connect]), and at the next [Read] the
    throttle is above its minimum. *)
Theorem C4_timeout_retries_through_throttle r tr m k m' e' s :
  loop r (tr ++ [Read m (Some ErrTimeout)] ++ k ++ [Read m' e']) = Some s ->
  no_Read k ->
  calls k = [Retry true] /\ 0 < throttle.level (connThrot s).
Proof.
  intros Hrun Hk. unfold loop in *.
  apply reader_run_app in Hrun as (s1 & _ & Hrun).
  apply reader_run_app in Hrun as (s2 & Hread & Hrun).
  apply run_snoc in Hrun as (s3 & Hrun & Hnext).
  apply run_one in Hread.
  pose proof (stretch r is_call after_timeout (after_timeout_step r)
                k s2 [] s3 (after_timeout_start _ _ _ _ Hread) Hk Hrun) as HI.
  simpl in HI. unfold after_timeout in HI.
  destruct s3 as [p m0 e0 rn cn th cc tc cd]. simpl in *.
  destruct p; simpl in Hnext; try done.
  destruct HI as [HI ?]. split; [exact HI|]. step_cases Hnext; done.
Qed.

Definition r0 : Reader := NewReader 3.

Lemma C4_timeout_retries_through_throttle_witness :
  calls [Retry true; LoadRunning true] = [Retry true] /\
  0 < throttle.level (connThrot
        {| at_pc := L175; msg := None; err := Some ErrTimeout;
           running := true; connected := true;
           connThrot := throttle.New 1; closeChan := false;
           transactions := false; closedChan := false |}).
Proof.
  apply (C4_timeout_retries_through_throttle r0
           [Connect None; Reset; LoadRunning true] None
           [Retry true; LoadRunning true] None (Some ErrTimeout)).
  - vm_compute. reflexivity.
  - repeat constructor.
Defined.

(** C4, as stated, fails: after a [Read] that returned ErrTimeout the
    loop cannot read again at once; its next step is the wait in the
    throttle, after which the backoff has grown from 0 to 1. *)
Lemma C4_counterexample :
  let tr := [Connect None; Reset; LoadRunning true;
             Read None (Some ErrTimeout)] in
  loop r0 (tr ++ [LoadRunning true; Read None None]) = None /\
  loop r0 (tr ++ [Read None None]) = None /\
  (fun s => throttle.level (connThrot s)) <$> loop r0 tr = Some 0 /\
  (fun s => throttle.level (connThrot s)) <$>
    loop r0 (tr ++ [Retry true; LoadRunning true; Read None None])
  = Some 1.
Proof. vm_compute. done. Qed.

End ReaderRetry.

(** ** What ends the loop of the Reader *)

Module ReaderClose.
Import types Reader ReaderProofs.

(** [Connect] or [Read] returned ErrTypeClosed. *)
Definition closed_result (e : event) : Prop :=
  e = Connect (Some ErrTypeClosed) \/ exists m, e = Read m (Some ErrTypeClosed).

(** The loop observed the shutdown: the throttle reported it, the
    [running] flag was found cleared, the closeChan case of a select
    was taken, or the responses channel was found closed. *)
Definition shutdown_seen (s : state) (e : event) : Prop :=
  (e = Retry false /\ closeChan s = true) \/
  (e = LoadRunning false /\ running s = false) \/
  (e = CloseChan /\ closeChan s = true) \/
  e = RecvNotOpen.

(** The loop is past a closed result: either at the [Reset] of line
    159 with [err] the closed error, or in the deferred function. *)
Definition closing (s : state) : Prop :=
  (at_pc s = L159 /\ err s = Some ErrTypeClosed) \/
  returned (at_pc s) = true.

(** The events left to a closing loop: the concurrent [CloseAsync],
    the [Reset] of line 159 and the steps of the deferred function. *)
Definition winds_down (e : event) : bool :=
  match e with
  | CloseAsync_cas | CloseAsync_close | Reset | WaitForClose _
  | CloseTransactions | CloseClosedChan => true
  | _ => false
  end.

(** The run of a closing loop whose adapter fails [n] times to report
    that it has closed and then reports it. *)
Definition drain (s : state) (n : nat) : list event :=
  match at_pc s with L159 => [Reset] | _ => [] end ++
  replicate n (WaitForClose (Some ErrTimeout)) ++
  [WaitForClose None; CloseTransactions; CloseClosedChan].

Lemma closed_result_closing r s e s' :
  step r s e = Some s' -> closed_result e ->
  (at_pc s' = L159 /\ err s' = Some ErrTypeClosed) \/ at_pc s' = L105.
Proof.
  intros Hstep [->|[m ->]]; destruct s as [p m0 e0 rn cn th cc tc cd];
    destruct p; simpl in Hstep; try done; step_cases Hstep; auto;
    intuition congruence.
Qed.

Lemma closing_step r s e s' :
  closing s -> step r s e = Some s' -> closing s' /\ winds_down e = true.
Proof.
  intros Hc Hstep. destruct s as [p m0 e0 rn cn th cc tc cd].
  unfold closing in *. simpl in Hc.
  destruct e, p; simpl in Hstep; try done;
    try (destruct Hc as [[? ?]|?]; done);
    step_cases Hstep; split; try done; auto.
  all: destruct Hc as [[? ?]|?]; simplify_eq.
Qed.

Lemma closing_run r k : forall s s',
  closing s -> run r s k = Some s' ->
  closing s' /\ Forall (fun e => winds_down e = true) k.
Proof.
  induction k as [|e k IH]; intros s s' Hc Hrun; simpl in Hrun.
  - by simplify_eq.
  - destruct (step r s e) as [s1|] eqn:Hstep; [|done].
    destruct (closing_step _ _ _ _ Hc Hstep) as [Hc1 He].
    destruct (IH _ _ Hc1 Hrun) as [Hc' Hk]. split; [done|]. by constructor.
Qed.

(** The deferred function has closed the channels when it is done. *)
Definition channels_closed (s : state) : Prop :=
  match at_pc s with
  | L112 => transactions s = true
  | Returned => transactions s = true /\ closedChan s = true
  | _ => True
  end.

Lemma channels_closed_step r s e s' :
  channels_closed s -> step r s e = Some s' -> channels_closed s'.
Proof.
  intros HJ Hstep. destruct s as [p m0 e0 rn cn th cc tc cd].
  unfold channels_closed in *. simpl in HJ.
  destruct e, p; simpl in Hstep; try done; step_cases Hstep; done.
Qed.

Lemma channels_closed_run r k : forall s s',
  channels_closed s -> run r s k = Some s' -> channels_closed s'.
Proof.
  induction k as [|e k IH]; intros s s' HJ Hrun; simpl in Hrun.
  - by simplify_eq.
  - destruct (step r s e) as [s1|] eqn:Hstep; [|done].
    eapply IH; [|done]. by eapply channels_closed_step.
Qed.

Lemma waits r n : forall s,
  at_pc s = L105 ->
  run r s (replicate n (WaitForClose (Some ErrTimeout))) = Some s.
Proof.
  induction n as [|n IH]; intros s Hpc; simpl; [done|].
  unfold step. rewrite Hpc. by apply IH.
Qed.

Lemma finish r s :
  at_pc s = L105 ->
  exists s', run r s [WaitForClose None; CloseTransactions; CloseClosedChan]
             = Some s' /\
             at_pc s' = Returned /\ transactions s' = true /\
             closedChan s' = true.
Proof.
  destruct s as [p m0 e0 rn cn th cc tc cd]. simpl. intros ->.
  eexists. split; [reflexivity|done].
Qed.

Lemma drain_returns r s n :
  (at_pc s = L159 /\ err s = Some ErrTypeClosed) \/ at_pc s = L105 ->
  exists s', run r s (drain s n) = Some s' /\
             at_pc s' = Returned /\ transactions s' = true /\
             closedChan s' = true.
Proof.
  assert (forall s0, at_pc s0 = L105 ->
            exists s', run r s0 (replicate n (WaitForClose (Some ErrTimeout)) ++
                                 [WaitForClose None; CloseTransactions;
                                  CloseClosedChan]) = Some s' /\
                       at_pc s' = Returned /\ transactions s' = true /\
                       closedChan s' = true) as Hwait.
  { intros s0 Hpc. destruct (finish r s0 Hpc) as (s' & Hrun & ?).
    exists s'. split; [|done]. apply reader_run_app. exists s0.
    split; [by apply waits | done]. }
  intros [[Hpc Herr]|Hpc]; unfold drain; rewrite Hpc.
  - destruct s as [p m0 e0 rn cn th cc tc cd]. simpl in Hpc, Herr. subst.
    destruct (Hwait (L166 (reset (mkState L159 m0 (Some ErrTypeClosed) rn cn
                                    th cc tc cd)))) as (s' & Hrun & ?);
      [done|].
    exists s'. split; [|done]. exact Hrun.
  - by apply Hwait.
Qed.

(** At line 159 the error in [err] is the one the last [Read]
    returned. *)
Lemma at_L159 r tr : forall s,
  run r init tr = Some s -> at_pc s = L159 ->
  exists tr' m, prog tr = tr' ++ [Read m (err s)].
Proof.
  induction tr as [|e tr IH] using rev_ind; intros s Hrun Hpc.
  - simpl in Hrun. by simplify_eq.
  - apply run_snoc in Hrun as (s1 & Hrun & Hstep).
    unfold prog. rewrite List.filter_app. fold (prog tr).
    destruct s1 as [p m0 e0 rn cn th cc tc cd].
    destruct e, p; simpl in Hstep; try done; step_cases Hstep; try done.
    all: try (destruct (IH _ Hrun eq_refl) as (tr' & m' & ->);
              rewrite app_nil_r; by eauto).
    all: by eauto.
Qed.

Lemma loop_exit r tr s0 e s :
  run r init tr = Some s0 -> step r s0 e = Some s ->
  returned (at_pc s0) = false -> returned (at_pc s) = true ->
  closed_result e \/
  (e = Reset /\ exists tr' m, prog tr = tr' ++ [Read m (Some ErrTypeClosed)]) \/
  shutdown_seen s0 e.
Proof.
  intros Hrun Hstep H0 H1.
  destruct (decide (at_pc s0 = L159)) as [Hpc|Hpc].
  - destruct (at_L159 _ _ _ Hrun Hpc) as (tr' & m & Htr).
    destruct s0 as [p m0 e0 rn cn th cc tc cd]. simpl in *. subst p.
    destruct e; simpl in Hstep; try done; step_cases Hstep; try done.
    right. left. eauto.
  - clear Hrun. destruct s0 as [p m0 e0 rn cn th cc tc cd].
    unfold closed_result, shutdown_seen. simpl in *.
    destruct e, p; simpl in Hstep; try done; step_cases Hstep; try done;
      try (destruct cc; simplify_eq);
      first [ left; left; reflexivity
            | left; right; eexists; reflexivity
            | right; right; left; done
            | right; right; right; left; done
            | right; right; right; right; left; done
            | right; right; right; right; right; done ].
Qed.

Lemma init_channels_closed : channels_closed init.
Proof. done. Qed.


Definition r0 : Reader := NewReader 3.

Definition closed_at_read : state :=
  {| at_pc := L105; msg := None; err := Some ErrTypeClosed; running := true;
     connected := true; connThrot := throttle.New 0; closeChan := false;
     transactions := false; closedChan := false |}.


End ReaderClose.

(** ** Resolution of the Transactions taken by the LineWriter *)

Module LineWriterResolve.
Import types LineWriter LineWriterProofs.

(** C8 (amended).  In every run of the sync sink writer the taking,
    writing and resolving of Transactions form complete rounds, one
    per inbound Transaction: the write of the rendered Payload, then
    the delivery, on the Transaction's own response channel, of the
    resolution that carries the write's result (nil on success, the
    write error on failure), and only then the taking of the next
    Transaction.  The only round that can stay incomplete is the last
    one: it is either still in progress, or the writer returned from
    the select of line 148 through its closeChan case, after the
    shutdown was signalled, without resolving that Transaction. *)
Theorem C8_write_then_resolve w tr s :
  loop w tr = Some s ->
  exists ps tail,
    obs tr = rounds w ps ++ tail /\
    (tail = [] \/
     (exists ts, tail = [Recv ts] /\ at_pc s = L130 ts) \/
     (exists ts err,
        tail = [Recv ts; Fprintf (rendered w (Payload ts)) err] /\
        (at_pc s = L148 ts err \/ closeChan s = true))).
Proof.
  intros Hrun. unfold loop in *.
  destruct (loop_rounds w tr s Hrun) as (ps & tail & Hobs & Hfl).
  exists ps, tail. split; [done|].
  unfold in_flight in Hfl.
  destruct (at_pc s) eqn:Hpc;
    try (destruct Hfl as [->|[? (ts0 & err0 & ->)]]); subst;
    first [ by left
          | right; left; by eexists
          | right; right; eexists _, _; split; [done|]; by eauto ].
Qed.

Definition w0 : LineWriter := NewLineWriter "" false.
Definition t1 : Transaction := NewTransaction ["foo"] 7.
Definition t2 : Transaction := NewTransaction ["bar"; "baz"] 7.
Definition failed : error := Some (ErrOther "short write").

Definition two_rounds : list event :=
  [LoadRunning true; Recv t1; Fprintf (rendered w0 ["foo"]) None;
   Send 7 (response.NewError None);
   LoadRunning true; Recv t2; Fprintf (rendered w0 ["bar"; "baz"]) failed;
   Send 7 (response.NewError failed)].

Lemma C8_write_then_resolve_witness :
  exists ps tail,
    obs two_rounds = rounds w0 ps ++ tail /\
    (tail = [] \/
     (exists ts, tail = [Recv ts] /\ at_pc init = L130 ts) \/
     (exists ts err,
        tail = [Recv ts; Fprintf (rendered w0 (Payload ts)) err] /\
        (at_pc init = L148 ts err \/ closeChan init = true))).
Proof.
  apply (C8_write_then_resolve w0 two_rounds init).
  vm_compute. reflexivity.
Defined.

(** C8, as stated, fails: the write of the Transaction fails with an
    error, the shutdown is signalled, and the select of line 148 takes
    its closeChan case: the writer returns and the Transaction is
    never resolved with the write's error. *)
Lemma C8_counterexample :
  let tr := [LoadRunning true; Recv t1; Fprintf (rendered w0 ["foo"]) failed;
             CloseAsync_cas; CloseAsync_close; CloseChan; CloseClosedChan] in
  at_pc <$> loop w0 tr = Some Returned /\
  accepted tr = [t1] /\
  written tr = [(rendered w0 ["foo"], failed)] /\
  resolved tr = [].
Proof. vm_compute. done. Qed.

(** The resolutions delivered by the writer are those of the
    Transactions it took, in order, each on the Transaction's own
    channel and at most once; at most the last Transaction taken is
    without its resolution, and when the writer has reported closed in
    that situation, the shutdown had been signalled. *)
Lemma writer_resolves w tr s :
  run w init tr = Some s ->
  exists ps,
    resolved tr = (fun p => (ResponseChan p.1, response.NewError p.2)) <$> ps /\
    (accepted tr = ps.*1 \/
     exists ts, accepted tr = ps.*1 ++ [ts] /\
                (closedChan s = true -> closeChan s = true)).
Proof.
  intros Hrun.
  destruct (loop_rounds w tr s Hrun) as (ps & tail & Hobs & Hfl).
  assert (closedChan s = true -> at_pc s = Returned) as Hclosed.
  { by apply (closed_returned w tr init s). }
  exists ps.
  rewrite <- (accepted_obs tr), <- (resolved_obs tr), Hobs.
  rewrite accepted_rounds, resolved_rounds.
  unfold in_flight in Hfl.
  destruct (at_pc s) eqn:Hpc; subst; simpl; rewrite ?app_nil_r;
    try (split; [done|]; by left);
    try (split; [done|]; right; eexists; split; [done|];
         intros Hc; by specialize (Hclosed Hc)).
  all: destruct Hfl as [->|[? (ts & err & ->)]]; simpl; rewrite ?app_nil_r;
    (split; [done|]); [by left | right; eauto].
Qed.

End LineWriterResolve.

(** ** The Transactions emitted by the Reader *)

Module ReaderRounds.
Import types Reader ReaderProofs ReaderAck.

(** The operations on the two channels and the acknowledgements. *)
Definition is_chan_op (e : event) : bool :=
  match e with
  | Send _ | Recv _ | Acknowledge _ _ => true
  | _ => false
  end.

Definition chan_ops (tr : list event) : list event :=
  List.filter is_chan_op tr.

(** One emitted Transaction with its resolution and, when line 205
    asks for it, the result of the one call of [Acknowledge]. *)
Definition settled_round (r : Reader)
    (x : Message * Response * option error) : list event :=
  [Send (NewTransaction x.1.1 (responses r)); Recv x.1.2] ++
  match x.2 with
  | Some ret => [Acknowledge (Error x.1.2) ret]
  | None => []
  end.

Definition settled_rounds (r : Reader)
    (xs : list (Message * Response * option error)) : list event :=
  flat_map (settled_round r) xs.

Definition ack_as_line_205 (x : Message * Response * option error) : Prop :=
  match x.2 with
  | Some _ => needs_ack x.1.2
  | None => skips_ack x.1.2
  end.

(** What is in flight at each program point: nothing, an emitted
    Transaction whose resolution has not been received (at line 195,
    or after a [return] from that select), or a resolution whose
    acknowledgement is about to be called. *)
Definition awaiting (r : Reader) (s : state) (tail : list event) : Prop :=
  match at_pc s with
  | L195 => exists m, tail = [Send (NewTransaction m (responses r))]
  | L206 res =>
      exists m, tail = [Send (NewTransaction m (responses r)); Recv res] /\
                needs_ack res
  | L105 | L111 | L112 | Returned =>
      tail = [] \/ exists m, tail = [Send (NewTransaction m (responses r))]
  | _ => tail = []
  end.

Lemma settled_rounds_snoc r xs x :
  settled_rounds r (xs ++ [x]) = settled_rounds r xs ++ settled_round r x.
Proof. unfold settled_rounds. rewrite flat_map_app. simpl. by rewrite app_nil_r. Qed.

Ltac keep xs :=
  rewrite ?app_nil_r; exists xs; eexists;
  split; [first [reflexivity | symmetry; apply app_nil_r] |];
  split; [assumption|];
  simpl;
  first [ reflexivity | by eexists | left; reflexivity | right; by eexists
        | eexists; split; [reflexivity|assumption] ].

Lemma awaiting_step r s e s' xs tail :
  awaiting r s tail -> Forall ack_as_line_205 xs ->
  step r s e = Some s' ->
  exists xs' tail',
    settled_rounds r xs ++ tail ++ chan_ops [e]
    = settled_rounds r xs' ++ tail' /\
    Forall ack_as_line_205 xs' /\
    awaiting r s' tail'.
Proof.
  intros Hfl Hxs Hstep. destruct s as [p m0 e0 rn cn th cc tc cd].
  unfold awaiting in Hfl. simpl in Hfl.
  destruct e, p; simpl in Hstep; try done;
    step_cases Hstep; unfold awaiting; simpl;
    try (destruct Hfl as [->|[m1 ->]]);
    try (destruct Hfl as [m1 [-> ?]]);
    try (destruct Hfl as [m1 ->]);
    subst; simpl;
    try (keep xs; fail).
  - (* the acknowledgement of line 206 completes a round *)
    exists (xs ++ [(m1, res, Some ret)]), []. split_and!; [|  |done].
    + by rewrite settled_rounds_snoc, app_nil_r.
    + apply Forall_app. split; [done|]. by constructor.
  - (* a resolution that needs no acknowledgement completes a round *)
    exists (xs ++ [(m1, res, None)]), []. split_and!; [|  |done].
    + by rewrite settled_rounds_snoc, app_nil_r.
    + apply Forall_app. split; [done|]. constructor; [|done].
      unfold ack_as_line_205, skips_ack. simpl.
      destruct (Error res), (SkipAck res); intuition congruence.
Qed.

Lemma awaiting_run r tr : forall s s' xs tail,
  awaiting r s tail -> Forall ack_as_line_205 xs ->
  run r s tr = Some s' ->
  exists xs' tail',
    settled_rounds r xs ++ tail ++ chan_ops tr
    = settled_rounds r xs' ++ tail' /\
    Forall ack_as_line_205 xs' /\
    awaiting r s' tail'.
Proof.
  induction tr as [|e tr IH]; intros s s' xs tail Hfl Hxs Hrun; simpl in Hrun.
  - simplify_eq. exists xs, tail. by rewrite app_nil_r.
  - destruct (step r s e) as [s1|] eqn:Hstep; [|done].
    destruct (awaiting_step _ _ _ _ xs _ Hfl Hxs Hstep)
      as (xs1 & tail1 & Heq & Hxs1 & Hfl1).
    destruct (IH _ _ xs1 _ Hfl1 Hxs1 Hrun) as (xs2 & tail2 & Heq2 & ? & ?).
    exists xs2, tail2. split; [|done].
    change (e :: tr) with ([e] ++ tr). unfold chan_ops in *.
    rewrite List.filter_app, !app_assoc, <- (app_assoc (settled_rounds r xs)), Heq.
    by rewrite <- app_assoc.
Qed.

(** Every run of the Reader emits its Transactions one at a time: a
    Transaction is sent only when the one before has had its
    resolution received, once, and has been acknowledged as line 205
    prescribes, at most once. *)
Lemma reader_awaits r tr s :
  run r init tr = Some s ->
  exists xs tail,
    chan_ops tr = settled_rounds r xs ++ tail /\
    Forall ack_as_line_205 xs /\
    awaiting r s tail.
Proof.
  intros Hrun.
  destruct (awaiting_run r tr init s [] [] eq_refl (Forall_nil_2 _) Hrun)
    as (xs & tail & Heq & ? & ?).
  by exists xs, tail.
Qed.

End ReaderRounds.

Module BatcherExamples.
Import types Batcher.

Definition T (s : string) : Transaction := NewTransaction [s] 9.
Definition E : Err := ErrOther "E".

(** Section 8, batch fan-out correctness. *)
Example three_in_order :
  emitted (run (count_policy 3) init [Inbound (T "1"); Inbound (T "2"); Inbound (T "3")])
  = [mkOutbound ["1"; "2"; "3"] [T "1"; T "2"; T "3"]].
Proof. reflexivity. Qed.

Example index_1_failed :
  resolve (mkOutbound ["1"; "2"; "3"] [T "1"; T "2"; T "3"])
    (PartialErrors (batch.Failed 1 E (batch.NewError ["1"; "2"; "3"] (ErrOther "foo"))))
  = [(T "1", None); (T "2", Some E); (T "3", None)].
Proof. vm_compute. reflexivity. Qed.

(** TestBatcherBatchError. *)
Example batch_error_test :
  let payload := ["foo0"; "foo1"; "foo2"; "foo3"] in
  let ts := T <$> payload in
  emitted (run (count_policy 4) init (Inbound <$> ts)) = [mkOutbound payload ts] /\
  resolve (mkOutbound payload ts)
    (PartialErrors
       (batch.Failed 2 (ErrOther "third error")
          (batch.Failed 0 (ErrOther "first error")
             (batch.NewError payload (ErrOther "foo")))))
  = [(T "foo0", Some (ErrOther "first error")); (T "foo1", None);
     (T "foo2", Some (ErrOther "third error")); (T "foo3", None)].
Proof. vm_compute. split; reflexivity. Qed.

(** Section 8, graceful shutdown drains pending work. *)
Example one_of_three :
  out (run (count_policy 3) init [Inbound (T "1"); Close])
  = [Emit (mkOutbound ["1"] [T "1"]); ReportClosed].
Proof. reflexivity. Qed.

(** TestBatcherBasic: a count of 4, ten Transactions, then the end of
    the input: batches of 4, 4 and 2. *)
Example basic_test :
  let foo := ["foo 0"; "foo 1"; "foo 2"; "foo 3"; "foo 4"; "foo 5"; "foo 6";
              "foo 7"; "foo 8"; "foo 9"] in
  Batch <$> emitted (run (count_policy 4) init ((Inbound ∘ T <$> foo) ++ [Close]))
  = [["foo 0"; "foo 1"; "foo 2"; "foo 3"]; ["foo 4"; "foo 5"; "foo 6"; "foo 7"];
     ["foo 8"; "foo 9"]].
Proof. reflexivity. Qed.

(** TestBatcherTimed: a period trigger only; the timer releases the
    three Parts of the one Transaction taken. *)
Example timed_test :
  let t := NewTransaction ["foo1"; "foo2"; "foo3"] 9 in
  out (run {| Count := 0; ByteSize := 0; Period := true;
              Check := fun _ => false |} init [Inbound t; Tick; Close])
  = [Emit (mkOutbound ["foo1"; "foo2"; "foo3"] [t]); ReportClosed].
Proof. reflexivity. Qed.

End BatcherExamples.

(** ** Properties of the Batcher *)

Module BatcherProofs.
Import types Batcher.

Definition single (t : Transaction) : Prop := length (Payload t) = 1.

(** The Parts of a list of Transactions, in order. *)
Definition parts_of (ts : list Transaction) : Message :=
  concat (Payload <$> ts).

Lemma parts_of_app ts1 ts2 : parts_of (ts1 ++ ts2) = parts_of ts1 ++ parts_of ts2.
Proof. unfold parts_of. by rewrite fmap_app, concat_app. Qed.

Lemma parts_of_snoc ts t : parts_of (ts ++ [t]) = parts_of ts ++ Payload t.
Proof. rewrite parts_of_app. unfold parts_of. simpl. by rewrite app_nil_r. Qed.

Lemma parts_of_single_length ts : Forall single ts -> length (parts_of ts) = length ts.
Proof.
  induction 1 as [|t ts Ht _ IH]; [done|].
  change (parts_of (t :: ts)) with (Payload t ++ parts_of ts).
  rewrite length_app, IH, Ht. done.
Qed.

Lemma batcher_run_app p s evs1 evs2 :
  run p s (evs1 ++ evs2) = run p (run p s evs1) evs2.
Proof. apply foldl_app. Qed.

Lemma count_triggers c b :
  triggers (count_policy c) b = (0 <? c) && (c <=? length b).
Proof. unfold triggers. simpl. by rewrite !orb_false_r. Qed.

(** Below the count the Batcher only accumulates. *)
Lemma feed_below c ts :
  length ts < c -> Forall single ts ->
  run (count_policy c) init (Inbound <$> ts)
  = {| pending := parts_of ts; origins := ts; out := []; closed := false |}.
Proof.
  induction ts as [|t ts IH] using rev_ind; intros Hlen Hs; [done|].
  rewrite length_app in Hlen. simpl in Hlen.
  apply Forall_app in Hs as [Hs Ht].
  rewrite fmap_app, batcher_run_app, IH by (done || lia).
  simpl. unfold step. simpl.
  rewrite <- parts_of_snoc, count_triggers.
  rewrite parts_of_single_length by (apply Forall_app; done).
  rewrite length_app. simpl.
  replace (c <=? length ts + 1) with false by (symmetry; apply Nat.leb_gt; lia).
  by rewrite andb_false_r.
Qed.

(** What the outbound Transactions and the pending record account for:
    the Transactions taken while the Batcher was open. *)
Fixpoint taken (p : Policy) (s : state) (evs : list event) : list Transaction :=
  match evs with
  | [] => []
  | e :: evs' =>
      match e with
      | Inbound t => if closed s then [] else [t]
      | _ => []
      end ++ taken p (step p s e) evs'
  end.

Definition recorded (s : state) : list Transaction :=
  concat (fanout <$> emitted s) ++ origins s.

Lemma recorded_flush s : recorded (flush s) = recorded s.
Proof.
  unfold flush, recorded, emitted. destruct (pending s); [done|]. simpl.
  rewrite omap_app, fmap_app, concat_app. simpl.
  by rewrite !app_nil_r.
Qed.

Lemma recorded_step p s e :
  recorded (step p s e)
  = recorded s ++ match e with
                  | Inbound t => if closed s then [] else [t]
                  | _ => []
                  end.
Proof.
  unfold step. destruct (closed s) eqn:Hc.
  { destruct e; by rewrite app_nil_r. }
  destruct e as [t| |].
  - destruct (triggers _ _); rewrite ?recorded_flush;
      unfold recorded, emitted; simpl; by rewrite app_assoc.
  - destruct (Period p); rewrite ?recorded_flush; by rewrite app_nil_r.
  - rewrite app_nil_r, <- (recorded_flush s).
    unfold recorded, emitted. simpl. rewrite omap_app. simpl.
    by rewrite app_nil_r.
Qed.

Lemma recorded_run p evs : forall s,
  recorded (run p s evs) = recorded s ++ taken p s evs.
Proof.
  induction evs as [|e evs IH]; intros s; simpl.
  - by rewrite app_nil_r.
  - change (run p s (e :: evs)) with (run p (step p s e) evs).
    by rewrite IH, recorded_step, app_assoc.
Qed.

(** The pending Batch and every emitted Batch hold exactly the Parts
    of the Transactions recorded for them, in order. *)
Definition consistent (s : state) : Prop :=
  pending s = parts_of (origins s) /\
  Forall (fun o => Batch o = parts_of (fanout o)) (emitted s).

(** The invariant of the Batcher: it is consistent, and while it is
    open it never holds a pending batch that the Policy would
    release. *)
Definition inv (p : Policy) (s : state) : Prop :=
  consistent s /\
  (closed s = false -> pending s <> [] -> triggers p (pending s) = false).

Lemma inv_flush p s : consistent s -> inv p (flush s).
Proof.
  intros [Hp He]. unfold flush.
  destruct (pending s) as [|x b] eqn:Hb.
  - split; [split; [by rewrite Hb | done]|]. intros _ Hne. by rewrite Hb in Hne.
  - split; [|done]. split; simpl; [done|].
    unfold emitted. simpl. rewrite omap_app. apply Forall_app. split; [done|].
    simpl. constructor; [|done]. simpl. first [exact Hp | by rewrite <- Hp].
Qed.

Lemma inv_step p s e : inv p s -> inv p (step p s e).
Proof.
  intros Hi. unfold step. destruct (closed s) eqn:Hc; [exact Hi|].
  destruct Hi as [[Hp He] Ht].
  destruct e as [t| |].
  - set (s' := mkState (pending s ++ Payload t) (origins s ++ [t]) (out s) false).
    assert (consistent s') as Hs'.
    { split; simpl; [|done]. by rewrite parts_of_snoc, Hp. }
    destruct (triggers p (pending s')) eqn:Htr; [by apply inv_flush|].
    split; [done|]. by intros _ _.
  - destruct (Period p); [by apply inv_flush | done].
  - destruct (inv_flush p s (conj Hp He)) as [[Hp' He'] _].
    split; [|done]. split; simpl; [done|].
    unfold emitted in *. simpl. rewrite omap_app. simpl. by rewrite app_nil_r.
Qed.

Lemma inv_run p evs : forall s, inv p s -> inv p (run p s evs).
Proof.
  induction evs as [|e evs IH]; intros s Hi; [done|].
  apply IH. by apply inv_step.
Qed.

Lemma inv_init p : inv p init.
Proof. by repeat split. Qed.

(** The fan-out gives every originating Transaction one result. *)
Lemma fan_out_fst res ts : forall start, (fan_out res start ts).*1 = ts.
Proof. induction ts as [|t ts IH]; intros start; simpl; by rewrite ?IH. Qed.

Lemma fan_out_Ok ts : forall start,
  fan_out Ok start ts = (fun t => (t, None)) <$> ts.
Proof. induction ts as [|t ts IH]; intros start; simpl; by rewrite ?IH. Qed.

Lemma fan_out_WholeError e ts : forall start,
  fan_out (WholeError e) start ts = (fun t => (t, Some e)) <$> ts.
Proof. induction ts as [|t ts IH]; intros start; simpl; by rewrite ?IH. Qed.

Lemma first_failed_1 m i : first_failed m i 1 = m !! i.
Proof. simpl. by destruct (m !! i). Qed.

Lemma fan_out_single b ts : Forall single ts -> forall start i t,
  ts !! i = Some t ->
  fan_out (PartialErrors b) start ts !! i
  = Some (t, batch.failed b !! (start + i)).
Proof.
  induction 1 as [|t0 ts Ht0 _ IH]; intros start i t Hi; [done|].
  destruct i as [|i]; simpl in *.
  - simplify_eq. rewrite Ht0, first_failed_1. by rewrite Nat.add_0_r.
  - rewrite Ht0. rewrite (IH _ _ _ Hi). do 3 f_equal. lia.
Qed.

End BatcherProofs.

(** ** The claims about the Batcher *)

Module BatcherClaims.
Import types Batcher BatcherProofs.

(** C5.  A Batcher configured with a count trigger of [c], fed [c]
    single-Part Transactions, emits exactly one outbound Transaction,
    and its Batch holds exactly the Parts of those Transactions in
    their order of arrival. *)
Theorem C5_count_trigger_emits_one c ts :
  0 < c -> length ts = c -> Forall single ts ->
  out (run (count_policy c) init (Inbound <$> ts))
  = [Emit {| Batch := parts_of ts; fanout := ts |}].
Proof.
  intros Hc Hlen Hs.
  destruct ts as [|t ts _] using rev_ind; [simpl in Hlen; lia|].
  rewrite length_app in Hlen. simpl in Hlen.
  apply Forall_app in Hs as [Hs Ht].
  rewrite fmap_app, batcher_run_app, feed_below by (done || lia).
  simpl. unfold step. simpl.
  rewrite <- parts_of_snoc, count_triggers.
  rewrite parts_of_single_length by (apply Forall_app; done).
  rewrite length_app. simpl.
  replace (0 <? c) with true by (symmetry; apply Nat.ltb_lt; lia).
  replace (c <=? length ts + 1) with true by (symmetry; apply Nat.leb_le; lia).
  simpl. unfold flush. simpl.
  destruct (parts_of (ts ++ [t])) as [|x b] eqn:Hb; [|done].
  apply (f_equal length) in Hb.
  rewrite parts_of_single_length in Hb by (apply Forall_app; done).
  rewrite length_app in Hb. simpl in Hb. lia.
Qed.

Definition T (s : string) : Transaction := NewTransaction [s] 9.

Lemma C5_count_trigger_emits_one_witness :
  out (run (count_policy 3) init (Inbound <$> [T "1"; T "2"; T "3"]))
  = [Emit {| Batch := parts_of [T "1"; T "2"; T "3"];
             fanout := [T "1"; T "2"; T "3"] |}].
Proof.
  apply (C5_count_trigger_emits_one 3 [T "1"; T "2"; T "3"]).
  - lia.
  - reflexivity.
  - repeat constructor.
Defined.

(** C2.  Let an outbound Transaction emitted by a Batcher combine the
    Parts of originating single-Part Transactions (its Batch is their
    Parts in order, so the Transaction at position [i] owns index
    [i]).  Resolved with nil, it resolves every originating
    Transaction with nil; resolved with a plain error, every one with
    that error; resolved with a BatchError, the Transaction that owns
    a listed index with the error listed for that index and every
    other one with nil. *)
Theorem C2_fan_out p evs o :
  o ∈ emitted (run p init evs) ->
  Forall single (fanout o) ->
  Batch o = parts_of (fanout o) /\
  resolve o Ok = (fun t => (t, None)) <$> fanout o /\
  (forall e, resolve o (WholeError e) = (fun t => (t, Some e)) <$> fanout o) /\
  (forall b i t,
     fanout o !! i = Some t ->
     resolve o (PartialErrors b) !! i = Some (t, batch.failed b !! i)).
Proof.
  intros Ho Hs.
  destruct (inv_run p evs init (inv_init p)) as [[_ He] _].
  split_and!.
  - by apply (proj1 (Forall_forall _ _) He).
  - apply fan_out_Ok.
  - intros e. apply fan_out_WholeError.
  - intros b i t Hi. unfold resolve. by rewrite (fan_out_single b _ Hs 0 i t Hi).
Qed.

Definition four : list Transaction := T <$> ["foo0"; "foo1"; "foo2"; "foo3"].

Definition four_out : Outbound :=
  {| Batch := ["foo0"; "foo1"; "foo2"; "foo3"]; fanout := four |}.

Lemma C2_fan_out_witness :
  Batch four_out = parts_of (fanout four_out) /\
  resolve four_out Ok = (fun t => (t, None)) <$> fanout four_out /\
  (forall e, resolve four_out (WholeError e)
             = (fun t => (t, Some e)) <$> fanout four_out) /\
  (forall b i t,
     fanout four_out !! i = Some t ->
     resolve four_out (PartialErrors b) !! i = Some (t, batch.failed b !! i)).
Proof.
  apply (C2_fan_out (count_policy 4) (Inbound <$> four) four_out).
  - vm_compute. apply list_elem_of_here.
  - repeat constructor.
Defined.

(** C6.  Closing a Batcher whose pending batch is non-empty — which,
    the Batcher being open, is below what the Policy releases — emits
    that partial batch, with all the pending Parts and the
    Transactions recorded for them, as a final outbound Transaction,
    and only then reports closed; nothing stays pending. *)
Theorem C6_close_flushes_partial p evs s :
  s = run p init evs ->
  closed s = false -> pending s <> [] ->
  triggers p (pending s) = false /\
  pending s = parts_of (origins s) /\
  out (step p s Close)
  = out s ++ [Emit {| Batch := pending s; fanout := origins s |};
              ReportClosed] /\
  closed (step p s Close) = true /\
  pending (step p s Close) = [] /\
  origins (step p s Close) = [].
Proof.
  intros -> Hc Hne.
  destruct (inv_run p evs init (inv_init p)) as [[Hp _] Ht].
  split; [by apply Ht|]. split; [done|].
  unfold step. rewrite Hc. unfold flush.
  destruct (pending (run p init evs)) as [|x b] eqn:Hb; [done|].
  simpl. by rewrite <- app_assoc.
Qed.

Lemma C6_close_flushes_partial_witness :
  let s := run (count_policy 3) init [Inbound (T "1")] in
  triggers (count_policy 3) (pending s) = false /\
  pending s = parts_of (origins s) /\
  out (step (count_policy 3) s Close)
  = out s ++ [Emit {| Batch := pending s; fanout := origins s |};
              ReportClosed] /\
  closed (step (count_policy 3) s Close) = true /\
  pending (step (count_policy 3) s Close) = [] /\
  origins (step (count_policy 3) s Close) = [].
Proof.
  apply (C6_close_flushes_partial (count_policy 3) [Inbound (T "1")]).
  - reflexivity.
  - reflexivity.
  - discriminate.
Defined.

End BatcherClaims.

(** ** Independence of the original and the copy of a Message *)

Module messageProofs.
Import message.

Section Independence.
Variable Structured : Type.
Variable marshal : Structured -> string.

Implicit Types (st : store Structured) (p : Part Structured)
  (mus : list (mutation Structured)) (mu : mutation Structured)
  (w : world Structured) (prog : list (holder * mutation Structured)).

(** What a handle holds after its holder made the mutations [mus],
    the shared Part being [p0] at [l]: either it still shares [l]
    and has made no mutation, or it has a Part of its own, elsewhere,
    that is [p0] with those mutations applied. *)
Definition own (st : store Structured) (l : loc) (p0 : Part Structured) (m : Message)
    (mus : list (mutation Structured)) : Prop :=
  if partCopied m
  then part m <> l /\ st !! part m = Some (foldl (mutate marshal) p0 mus)
  else part m = l /\ mus = [].

Definition apart (w : world Structured) : Prop :=
  partCopied (orig w) = true -> partCopied (dup w) = true ->
  part (orig w) <> part (dup w).

Definition independent (l : loc) (p0 : Part Structured) (w : world Structured)
    (prog : list (holder * mutation Structured)) : Prop :=
  heap w !! l = Some p0 /\
  own (heap w) l p0 (orig w) (by_holder original prog) /\
  own (heap w) l p0 (dup w) (by_holder copy prog) /\
  apart w.

Lemma fresh_not_Some (st : store Structured) l p :
  st !! l = Some p -> fresh (dom st) <> l.
Proof.
  unfold store, loc in *.
  intros Hl Heq. apply (is_fresh (dom st)). rewrite Heq.
  apply elem_of_dom. by eexists.
Qed.

Lemma by_holder_snoc h prog a :
  by_holder h (prog ++ [a])
  = by_holder h prog ++ by_holder h [a].
Proof. unfold by_holder. by rewrite omap_app. Qed.

(** A mutation through a handle leaves every other Part alone and
    extends what the handle holds. *)
Lemma apply_own st l p0 m mus mu st' m' :
  st !! l = Some p0 -> own st l p0 m mus ->
  apply marshal st m mu = (st', m') ->
  partCopied m' = true /\
  own st' l p0 m' (mus ++ [mu]) /\
  (forall l' p', st !! l' = Some p' -> part m' <> l' \/
                 (partCopied m = true /\ part m = l')) /\
  (forall l', l' <> part m' -> st' !! l' = st !! l').
Proof.
  intros Hl Hown Happ. unfold apply, ensureCopied, own, alloc in *.
  unfold store, loc in *.
  destruct m as [lm [|]]; simpl in *.
  - destruct Hown as [Hne Hm]. simplify_eq. simpl.
    split; [done|]. split; [|split].
    + split; [done|]. rewrite lookup_alter_eq, Hm. simpl.
      by rewrite foldl_app.
    + intros l' p' _. destruct (decide (lm = l')); auto.
    + intros l' Hl'. by rewrite lookup_alter_ne.
  - destruct Hown as [-> ->]. rewrite Hl in Happ. simplify_eq. simpl.
    split; [done|]. split; [|split].
    + split; [by eapply fresh_not_Some|].
      by rewrite lookup_alter_eq, lookup_insert_eq.
    + intros l' p' Hl'. left. by eapply fresh_not_Some.
    + intros l' Hl'. by rewrite lookup_alter_ne, lookup_insert_ne.
Qed.

Lemma own_frame st st' l p0 m mus :
  own st l p0 m mus ->
  (partCopied m = true -> st' !! part m = st !! part m) ->
  own st' l p0 m mus.
Proof.
  unfold own. destruct (partCopied m); [|done].
  intros [? ?] Heq. by rewrite Heq.
Qed.

Lemma act_independent l p0 w prog a :
  independent l p0 w prog -> independent l p0 (act marshal w a) (prog ++ [a]).
Proof.
  intros (Hl & Ho & Hd & Hap). destruct a as [h mu].
  unfold independent. rewrite !by_holder_snoc. unfold act.
  destruct h; cbn [fst snd]; change (by_holder original [(original, mu)]) with [mu];
    change (by_holder copy [(copy, mu)]) with [mu];
    change (by_holder original [(copy, mu)]) with (@nil (mutation Structured));
    change (by_holder copy [(original, mu)]) with (@nil (mutation Structured));
    rewrite ?app_nil_r.
  - destruct (apply marshal (heap w) (orig w) mu) as [st' m'] eqn:Happ.
    destruct (apply_own _ _ _ _ _ _ _ _ Hl Ho Happ)
      as (Hc & Ho' & Hfar & Hframe).
    assert (part m' <> l) as Hml.
    { unfold own in Ho'. rewrite Hc in Ho'. by destruct Ho'. }
    assert (partCopied (dup w) = true -> part m' <> part (dup w)) as Hmd.
    { intros Hdc. unfold own in Hd. rewrite Hdc in Hd.
      destruct Hd as [_ Hd].
      destruct (Hfar _ _ Hd) as [?|[Hoc Heq]]; [done|].
      rewrite <- Heq in *. intros Hbad.
      unfold apply, ensureCopied in Happ. rewrite Hoc in Happ.
      simplify_eq. by apply Hap. }
    split_and!; simpl.
    + rewrite Hframe; [done|]. by intros ->.
    + done.
    + eapply own_frame; [done|]. intros Hdc. apply Hframe.
      intros Heq. by apply (Hmd Hdc).
    + intros _ Hdc. by apply Hmd.
  - destruct (apply marshal (heap w) (dup w) mu) as [st' m'] eqn:Happ.
    destruct (apply_own _ _ _ _ _ _ _ _ Hl Hd Happ)
      as (Hc & Hd' & Hfar & Hframe).
    assert (part m' <> l) as Hml.
    { unfold own in Hd'. rewrite Hc in Hd'. by destruct Hd'. }
    assert (partCopied (orig w) = true -> part m' <> part (orig w)) as Hmo.
    { intros Hoc. unfold own in Ho. rewrite Hoc in Ho.
      destruct Ho as [_ Ho].
      destruct (Hfar _ _ Ho) as [?|[Hdc Heq]]; [done|].
      rewrite <- Heq in *. intros Hbad.
      unfold apply, ensureCopied in Happ. rewrite Hdc in Happ.
      simplify_eq. by apply Hap. }
    split_and!; simpl.
    + rewrite Hframe; [done|]. by intros ->.
    + eapply own_frame; [done|]. intros Hoc. apply Hframe.
      intros Heq. by apply (Hmo Hoc).
    + done.
    + intros Hoc _. intros Heq. by apply (Hmo Hoc).
Qed.

Lemma acts_independent l p0 prog : forall w,
  independent l p0 w [] -> independent l p0 (acts marshal w prog) prog.
Proof.
  induction prog as [|a prog IH] using rev_ind; intros w Hw; [done|].
  unfold acts. rewrite foldl_app. simpl. apply act_independent.
  by apply IH.
Qed.

Lemma own_read st l p0 m mus :
  st !! l = Some p0 -> own st l p0 m mus ->
  read st m = Some (foldl (mutate marshal) p0 mus).
Proof.
  unfold own, read. intros Hl. destruct (partCopied m).
  - by intros [_ ?].
  - by intros [-> ->].
Qed.

Lemma acts_cons w a prog :
  acts marshal w (a :: prog) = acts marshal (act marshal w a) prog.
Proof. done. Qed.

(** Two handles that each own a Part of their own: every mutation is
    made in place, on the holder's Part. *)
Lemma acts_owned prog : forall st lo ld po pd w,
  lo <> ld -> st !! lo = Some po -> st !! ld = Some pd ->
  w = acts marshal {| heap := st; orig := mkMessage lo true;
                      dup := mkMessage ld true |} prog ->
  read (heap w) (orig w)
    = Some (foldl (mutate marshal) po (by_holder original prog)) /\
  read (heap w) (dup w)
    = Some (foldl (mutate marshal) pd (by_holder copy prog)).
Proof.
  unfold store, loc in *.
  induction prog as [|[h mu] prog IH]; intros st lo ld po pd w Hne Hlo Hld ->.
  - by split.
  - rewrite acts_cons. destruct h.
    + apply (IH (alter (fun p => mutate marshal p mu) lo st)
                lo ld (mutate marshal po mu) pd); [done| | |reflexivity].
      * by rewrite lookup_alter_eq, Hlo.
      * by rewrite lookup_alter_ne.
    + apply (IH (alter (fun p => mutate marshal p mu) ld st)
                lo ld po (mutate marshal pd mu)); [done| | |reflexivity].
      * by rewrite lookup_alter_ne.
      * by rewrite lookup_alter_eq, Hld.
Qed.

(** An original that owns its Part and a copy that shares it: the
    original writes in place, and the copy takes its duplicate of the
    Part as it then is at its first mutation. *)
Lemma acts_owner prog : forall st l p w,
  st !! l = Some p ->
  w = acts marshal {| heap := st; orig := mkMessage l true;
                      dup := mkMessage l false |} prog ->
  read (heap w) (orig w)
    = Some (foldl (mutate marshal) p (by_holder original prog)) /\
  read (heap w) (dup w)
    = Some (foldl (mutate marshal)
              (foldl (mutate marshal) p (before_copy prog))
              (by_holder copy prog)).
Proof.
  unfold store, loc in *.
  induction prog as [|[h mu] prog IH]; intros st l p w Hl ->.
  - by split.
  - rewrite acts_cons. destruct h.
    + apply (IH (alter (fun p => mutate marshal p mu) l st)
                l (mutate marshal p mu)); [|reflexivity].
      by rewrite lookup_alter_eq, Hl.
    + assert (fresh (dom st) <> l) as Hfr by (by eapply fresh_not_Some).
      apply (acts_owned prog
               (alter (fun p => mutate marshal p mu) (fresh (dom st))
                      (<[fresh (dom st) := p]> st))
               l (fresh (dom st)) p (mutate marshal p mu)); [done| | |].
      * unfold store, loc in *. by rewrite lookup_alter_ne, lookup_insert_ne.
      * unfold store, loc in *. by rewrite lookup_alter_eq, lookup_insert_eq.
      * f_equal. unfold act, apply, ensureCopied, alloc. simpl.
        unfold store, loc in *. by rewrite Hl.
Qed.


End Independence.

End messageProofs.

Module messageExamples.
Import message.

(** The structured view is a string here and nothing parses. *)
Definition no_parse (b : string) : option string := None.
Definition as_is (v : string) : string := v.

Definition hello : Part string :=
  {| data := "hello world"; metadata := {["foo" := "bar"]};
     structured := None |}.

Definition st0 : store string := {[ 0 := hello ]}.

(** TestMessageCopyAirGap: the copy is mutated, then the original;
    the wrapped Part, the original and the copy each keep their own
    bytes and metadata. *)
Definition air_gap : list (holder * mutation string) :=
  [(copy, SetBytes "and now this"); (copy, MetaSet "foo" "baz");
   (original, SetBytes "but not this"); (original, MetaSet "foo" "buz")].

Definition g1 : Message := newMessageFromPart 0.

Definition after_air_gap : world string :=
  acts as_is {| heap := st0; orig := g1; dup := Copy g1 |} air_gap.


Example air_gap_values :
  AsBytes (heap after_air_gap) (orig after_air_gap) = Some "but not this" /\
  MetaGet (heap after_air_gap) (orig after_air_gap) "foo" = Some "buz" /\
  AsBytes (heap after_air_gap) (dup after_air_gap) = Some "and now this" /\
  MetaGet (heap after_air_gap) (dup after_air_gap) "foo" = Some "baz" /\
  data <$> heap after_air_gap !! 0 = Some "hello world".
Proof. vm_compute. done. Qed.

(** TestNewMessageMutate: the original sets two metadata keys before
    the duplication; the copy is then given a structured content, new
    bytes, and its metadata is changed; the original keeps its bytes
    and metadata. *)
Definition new_message : store string * Message :=
  let '(st, g0) := NewMessage ∅ "not a json doc" in
  let '(st, g0) := apply as_is st g0 (MetaSet "foo" "bar") in
  apply as_is st g0 (MetaSet "bar" "baz").

Example new_message_mutate :
  let w := acts as_is
             {| heap := new_message.1; orig := new_message.2;
                dup := Copy new_message.2 |}
             [(copy, SetStructured "{foo:bar}"); (copy, SetBytes "foo bar baz");
              (copy, MetaDelete "foo"); (copy, MetaSet "foo" "new bar")] in
  AsBytes (heap w) (orig w) = Some "not a json doc" /\
  MetaGet (heap w) (orig w) "foo" = Some "bar" /\
  AsBytes (heap w) (dup w) = Some "foo bar baz" /\
  AsStructured no_parse (heap w) (dup w) = None /\
  MetaGet (heap w) (dup w) "foo" = Some "new bar" /\
  MetaGet (heap w) (dup w) "bar" = Some "baz".
Proof. vm_compute. done. Qed.


End messageExamples.

(** ** How the Reader can leave a Transaction without its resolution *)

Module ReaderExit.
Import types Reader ReaderProofs ReaderRounds.

Definition is_Send (e : event) : bool :=
  match e with Send _ => true | _ => false end.

(** The last operation on the channels was the sending of a
    Transaction: its resolution has not been received. *)
Definition unresolved (tr : list event) : Prop :=
  match last (chan_ops tr) with
  | Some e => is_Send e = true
  | None => False
  end.

(** Where a Transaction can be without its resolution: at the select
    of line 195, and after a return from that select, which is taken
    by its closeChan case or on finding the responses channel
    closed.  closedChan is closed by the last step only. *)
Definition exits (tr : list event) (s : state) : Prop :=
  (closedChan s = true -> at_pc s = Returned) /\
  match at_pc s with
  | L195 => True
  | L105 | L111 | L112 | Returned =>
      unresolved tr -> closeChan s = true \/ RecvNotOpen ∈ tr
  | _ => ~ unresolved tr
  end.

Lemma unresolved_snoc tr e :
  unresolved (tr ++ [e]) <->
  if is_chan_op e then is_Send e = true else unresolved tr.
Proof.
  unfold unresolved, chan_ops. rewrite List.filter_app. simpl.
  destruct (is_chan_op e); [by rewrite last_snoc | by rewrite app_nil_r].
Qed.

Lemma exits_step r tr s e s' :
  exits tr s -> step r s e = Some s' -> exits (tr ++ [e]) s'.
Proof.
  intros [Hcd HI] Hstep. destruct s as [p m0 e0 rn cn th cc tc cd].
  unfold exits in *. simpl in Hcd, HI.
  destruct e, p; simpl in Hstep; try done; step_cases Hstep;
    rewrite ?unresolved_snoc; simpl;
    (split; [first [done | by intros [=] | intros Hc; by specialize (Hcd Hc)]|]);
    try done; try tauto; try (intros _; by left).
  all: try (intros Hu; destruct (HI Hu) as [?|?];
            [by left | right; apply elem_of_app; by left]).
  intros _. right. apply elem_of_app. right. by apply list_elem_of_singleton.
Qed.

Lemma loop_exits r tr : forall s, loop r tr = Some s -> exits tr s.
Proof.
  induction tr as [|e tr IH] using rev_ind; intros s Hrun.
  - unfold loop in Hrun. simpl in Hrun. simplify_eq. split; [done|].
    simpl. by intros [].
  - unfold loop in Hrun. apply run_snoc in Hrun as (s1 & Hrun & Hstep).
    eapply exits_step; [|done]. by apply IH.
Qed.

(** Every run of the Reader is a sequence of settled rounds and what
    is in flight; and once the loop has returned (as it has when it
    reports closed), a Transaction is in flight only if the shutdown
    had been signalled or the responses channel was found closed. *)
Lemma reader_settles r tr s :
  loop r tr = Some s ->
  exists xs tail,
    chan_ops tr = settled_rounds r xs ++ tail /\
    Forall ack_as_line_205 xs /\
    awaiting r s tail /\
    (closedChan s = true -> returned (at_pc s) = true) /\
    (returned (at_pc s) = true -> tail <> [] ->
     closeChan s = true \/ RecvNotOpen ∈ tr).
Proof.
  intros Hrun.
  destruct (reader_awaits r tr s Hrun) as (xs & tail & Hops & Hxs & Haw).
  destruct (loop_exits r tr s Hrun) as [Hcd Hex].
  exists xs, tail. split_and!; try done.
  - intros Hc. by rewrite (Hcd Hc).
  - intros Hret Hne. unfold awaiting in Haw.
    assert (unresolved tr) as Hun.
    { destruct (at_pc s); try done;
        (destruct Haw as [->|[m ->]]; [done|]);
        unfold unresolved; by rewrite Hops, last_snoc. }
    destruct (at_pc s); try done; by apply Hex.
Qed.

End ReaderExit.

(** ** What the Batcher delivers when downstream resolves *)

Module BatcherDownstreamProofs.
Import types Batcher BatcherProofs BatcherDownstream.

Lemma batcher_perform p acts : forall y,
  batcher (foldl (perform p) y acts) = run p (batcher y) (events acts).
Proof.
  induction acts as [|a acts IH]; intros y; [done|].
  simpl. rewrite IH. destruct a as [e|i res]; simpl; [done|].
  by destruct (emitted (batcher y) !! i).
Qed.

(** The Batcher only adds to what it has emitted. *)
Lemma emitted_flush s : exists more, emitted (flush s) = emitted s ++ more.
Proof.
  unfold flush, emitted. destruct (pending s).
  - exists []. by rewrite app_nil_r.
  - simpl. rewrite omap_app. by eexists.
Qed.

Lemma emitted_step p s e : exists more, emitted (step p s e) = emitted s ++ more.
Proof.
  unfold step. destruct (closed s).
  { exists []. by rewrite app_nil_r. }
  destruct e as [t| |].
  - destruct (triggers _ _).
    + apply (emitted_flush (mkState _ _ _ _)).
    + exists []. by rewrite app_nil_r.
  - destruct (Period p); [apply emitted_flush|].
    exists []. by rewrite app_nil_r.
  - destruct (emitted_flush s) as [more Hmore]. exists more.
    unfold emitted in *. simpl. rewrite omap_app, Hmore. simpl.
    by rewrite app_nil_r.
Qed.

(** What has been delivered is the fan-out of the outbound
    Transactions that have resolved, and these were emitted. *)
Definition delivered (y : system) : Prop :=
  Forall (fun i => i < length (emitted (batcher y))) (resolved y) /\
  (results y).*1
  = concat (fanout <$> omap (fun i => emitted (batcher y) !! i) (resolved y)).

Lemma delivered_perform p y a : delivered y -> delivered (perform p y a).
Proof.
  intros [Hin Hres]. destruct a as [e|i res]; simpl.
  - destruct (emitted_step p (batcher y) e) as [more Hmore].
    split; simpl.
    + rewrite Hmore, length_app. eapply Forall_impl; [done|].
      simpl. intros. lia.
    + rewrite Hres, Hmore. do 2 f_equal.
      apply list_omap_ext, Forall2_same_length_lookup_2; [done|].
      intros j i1 i2 H1 H2. simplify_eq.
      rewrite lookup_app_l; [done|].
      by apply (proj1 (Forall_lookup _ _) Hin j).
  - destruct (emitted (batcher y) !! i) as [o|] eqn:Ho; [|done].
    split; simpl.
    + apply Forall_app. split; [done|]. constructor; [|done].
      by eapply lookup_lt_Some.
    + rewrite fmap_app, omap_app, fmap_app, concat_app, Hres. simpl.
      rewrite Ho. simpl. unfold resolve. by rewrite fan_out_fst, app_nil_r.
Qed.

Lemma delivered_all p acts : forall y,
  delivered y -> delivered (foldl (perform p) y acts).
Proof.
  induction acts as [|a acts IH]; intros y Hy; [done|].
  simpl. apply IH. by apply delivered_perform.
Qed.

Lemma resolved_sublist p acts : forall y,
  exists more,
    resolved (foldl (perform p) y acts) = resolved y ++ more /\
    more `sublist_of` resolutions acts.
Proof.
  induction acts as [|a acts IH]; intros y.
  - exists []. by rewrite app_nil_r.
  - simpl. destruct (IH (perform p y a)) as (more & Heq & Hsub).
    destruct a as [e|i res]; simpl in *.
    + exists more. by split.
    + unfold resolutions. simpl. fold (resolutions acts).
      destruct (emitted (batcher y) !! i).
      * simpl in Heq. exists (i :: more). rewrite Heq, <- app_assoc.
        split; [done|]. by constructor.
      * exists more. split; [done|]. by constructor.
Qed.

Lemma concat_Permutation {A} (l k : list (list A)) :
  l ≡ₚ k -> concat l ≡ₚ concat k.
Proof.
  induction 1 as [|x l k _ IH|x y l|l k j _ IH1 _ IH2]; simpl.
  - done.
  - by rewrite IH.
  - by rewrite !app_assoc, (comm app x y).
  - by rewrite IH1.
Qed.

Lemma omap_lookup_seq {A} (E : list A) :
  omap (fun i => E !! i) (seq 0 (length E)) = E.
Proof.
  induction E as [|x E IH] using rev_ind; [done|].
  rewrite length_app. simpl. rewrite Nat.add_1_r, seq_S, omap_app. simpl.
  rewrite lookup_app_r, Nat.sub_diag by done. simpl. f_equal.
  rewrite <- IH at 2.
  apply list_omap_ext, Forall2_same_length_lookup_2; [done|].
  intros j i1 i2 H1 H2. simplify_eq.
  apply lookup_seq in H1 as [-> ?]. by rewrite lookup_app_l.
Qed.

Lemma omap_unless {A} (E : list A) (D l : list nat) :
  omap (fun i => if decide (i ∈ D) then None else E !! i) l
  = omap (fun i => E !! i) (filter (fun i => i ∉ D) l).
Proof.
  induction l as [|i l IH]; [done|].
  rewrite filter_cons. simpl.
  destruct (decide (i ∈ D)).
  - by rewrite decide_False by tauto.
  - rewrite decide_True by done. simpl.
    change (list_omap nat A) with (@omap list _ nat A). by rewrite IH.
Qed.

(** The outbound Transactions are those that have resolved and those
    that are waiting. *)
Lemma resolved_or_waiting {A} (E : list A) (D : list nat) :
  NoDup D -> Forall (fun i => i < length E) D ->
  omap (fun i => E !! i) D
  ++ omap (fun i => if decide (i ∈ D) then None else E !! i)
          (seq 0 (length E))
  ≡ₚ E.
Proof.
  intros Hnd Hin. rewrite (omap_unless E D (seq 0 (length E))).
  rewrite <- omap_app.
  trans (omap (fun i => E !! i) (seq 0 (length E)));
    [|by rewrite omap_lookup_seq].
  apply omap_Permutation.
  trans (filter (fun i => i ∈ D) (seq 0 (length E))
         ++ filter (fun i => i ∉ D) (seq 0 (length E)));
    [|apply filter_app_complement].
  f_equiv. apply NoDup_Permutation; [done| |].
  - apply NoDup_filter, NoDup_seq.
  - intros i. rewrite list_elem_of_filter, elem_of_seq.
    split; [|tauto]. intros Hi. split; [done|].
    apply (proj1 (Forall_forall _ _) Hin) in Hi. lia.
Qed.

(** A closed Batcher has nothing pending. *)
Lemma closed_pending p evs : forall s,
  (closed s = true -> pending s = []) ->
  closed (run p s evs) = true -> pending (run p s evs) = [].
Proof.
  induction evs as [|e evs IH]; intros s Hs; [done|].
  apply IH. unfold step. destruct (closed s) eqn:Hc; [intros _; by apply Hs|].
  destruct e as [t| |].
  - destruct (triggers _ _); unfold flush; simpl; [|done].
    by destruct (pending s ++ Payload t).
  - destruct (Period p); [|by rewrite Hc].
    unfold flush. destruct (pending s); simpl; by rewrite ?Hc.
  - intros _. simpl. unfold flush. destruct (pending s) eqn:Hp; simpl; done.
Qed.

Lemma parts_of_nil ts : parts_of ts = [] -> Forall (fun t => Payload t = []) ts.
Proof.
  induction ts as [|t ts IH]; [done|].
  change (parts_of (t :: ts)) with (Payload t ++ parts_of ts).
  intros [? ?]%app_eq_nil. constructor; [done|]. by apply IH.
Qed.

(** Every Transaction the Batcher took is accounted for once: its
    resolution has been delivered, or it waits in the table of an
    outbound Transaction that has not resolved, or it is pending. *)
Lemma batcher_accounts p acts :
  NoDup (resolutions acts) ->
  let y := perform_all p acts in
  (results y).*1 ++ concat (fanout <$> waiting y) ++ origins (batcher y)
  ≡ₚ taken p init (events acts) /\
  (closed (batcher y) = true ->
   pending (batcher y) = [] /\
   Forall (fun t => Payload t = []) (origins (batcher y))).
Proof.
  intros Hnd y.
  assert (batcher y = run p init (events acts)) as Hb.
  { apply (batcher_perform p acts start). }
  destruct (delivered_all p acts start) as [Hin Hres].
  { by split. }
  fold (perform_all p acts) in Hin, Hres. fold y in Hin, Hres.
  destruct (resolved_sublist p acts start) as (more & Heq & Hsub).
  fold (perform_all p acts) in Heq. fold y in Heq. simpl in Heq.
  assert (NoDup (resolved y)) as Hnd'.
  { rewrite Heq. by eapply sublist_NoDup. }
  split.
  - pose proof (recorded_run p (events acts) init) as Hrec.
    rewrite <- Hb in Hrec. unfold recorded in Hrec at 2. simpl in Hrec.
    rewrite <- Hrec. unfold recorded. rewrite app_assoc. f_equiv.
    rewrite Hres, <- concat_app, <- fmap_app.
    apply concat_Permutation, fmap_Permutation.
    unfold waiting. by apply resolved_or_waiting.
  - intros Hc. rewrite Hb in *.
    assert (pending (run p init (events acts)) = []) as Hp.
    { by apply closed_pending. }
    split; [done|].
    destruct (inv_run p (events acts) init (inv_init p)) as [[Hcons _] _].
    apply parts_of_nil. by rewrite <- Hcons.
Qed.

End BatcherDownstreamProofs.

(** ** Resolution of Transactions across the stages *)

Module Resolution.
Import types.

(** C1 (amended).  No stage resolves a Transaction more than once, and
    a Transaction is left without its resolution only as follows.
    - Sync sink writer: the resolutions it delivers are those of the
      Transactions it took, in order, one each and on the
      Transaction's own channel; only the last Transaction taken can
      be without its resolution, and if the writer has reported
      closed in that situation, the shutdown had been signalled (it
      returned through the closeChan case of the select of line 148).
    - Sync source wrapper: it emits one Transaction at a time,
      receives at most one resolution for each and calls
      [Acknowledge] at most once for each, as line 205 prescribes;
      only the last emitted Transaction can be without its
      resolution; it reports closed only after its loop has
      returned, and if the loop has returned with that Transaction
      unresolved, then the shutdown had been signalled or the loop
      found its responses channel closed (the two ways out of the
      select of line 195).
    - Batcher (modelled from the spec): if downstream resolves every
      outbound Transaction at most once, every Transaction the
      Batcher took is accounted for exactly once: its resolution has
      been delivered, or it stands in the table of an outbound
      Transaction that was emitted and has not resolved, or it is in
      the pending record; and a Batcher that has closed has no Part
      pending, so that only Transactions without Parts can be in its
      pending record. *)
Theorem C1_resolved_at_most_once :
  (forall w tr s,
     LineWriter.loop w tr = Some s ->
     exists ps,
       LineWriter.resolved tr
       = (fun p => (ResponseChan p.1, response.NewError p.2)) <$> ps /\
       (LineWriter.accepted tr = ps.*1 \/
        exists ts, LineWriter.accepted tr = ps.*1 ++ [ts] /\
                   (LineWriter.closedChan s = true ->
                    LineWriter.closeChan s = true))) /\
  (forall r tr s,
     Reader.loop r tr = Some s ->
     exists xs tail,
       ReaderRounds.chan_ops tr = ReaderRounds.settled_rounds r xs ++ tail /\
       Forall ReaderRounds.ack_as_line_205 xs /\
       ReaderRounds.awaiting r s tail /\
       (Reader.closedChan s = true ->
        Reader.returned (Reader.at_pc s) = true) /\
       (Reader.returned (Reader.at_pc s) = true -> tail <> [] ->
        Reader.closeChan s = true \/ Reader.RecvNotOpen ∈ tr)) /\
  (forall p acts,
     NoDup (BatcherDownstream.resolutions acts) ->
     (BatcherDownstream.results (BatcherDownstream.perform_all p acts)).*1
       ++ concat (Batcher.fanout <$>
                  BatcherDownstream.waiting
                    (BatcherDownstream.perform_all p acts))
       ++ Batcher.origins
            (BatcherDownstream.batcher (BatcherDownstream.perform_all p acts))
     ≡ₚ BatcherProofs.taken p Batcher.init (BatcherDownstream.events acts) /\
     (Batcher.closed
        (BatcherDownstream.batcher (BatcherDownstream.perform_all p acts))
      = true ->
      Batcher.pending
        (BatcherDownstream.batcher (BatcherDownstream.perform_all p acts))
      = [] /\
      Forall (fun t => Payload t = [])
        (Batcher.origins
           (BatcherDownstream.batcher
              (BatcherDownstream.perform_all p acts))))).
Proof.
  split; [|split].
  - apply LineWriterResolve.writer_resolves.
  - apply ReaderExit.reader_settles.
  - intros p acts Hnd.
    apply (BatcherDownstreamProofs.batcher_accounts p acts Hnd).
Qed.

(** A shutdown of the Reader while it waits for a resolution. *)
Definition reader_shutdown : list Reader.event :=
  [Reader.Connect None; Reader.Reset; Reader.LoadRunning true;
   Reader.Read (Some ["foo"]) None; Reader.Reset;
   Reader.Send (NewTransaction ["foo"] 3);
   Reader.CloseAsync_cas; Reader.CloseAsync_close; Reader.CloseChan;
   Reader.WaitForClose None; Reader.CloseTransactions;
   Reader.CloseClosedChan].

Definition reader_closed : Reader.state :=
  {| Reader.at_pc := Reader.Returned; Reader.msg := Some ["foo"];
     Reader.err := None; Reader.running := false;
     Reader.connected := false; Reader.connThrot := throttle.New 0;
     Reader.closeChan := true; Reader.transactions := true;
     Reader.closedChan := true |}.

(** Two Transactions taken by a Batcher with a count of 3, the
    shutdown, and the resolution of the one outbound Transaction. *)
Definition batcher_acts : list BatcherDownstream.action :=
  [BatcherDownstream.Do (Batcher.Inbound (NewTransaction ["1"] 9));
   BatcherDownstream.Do (Batcher.Inbound (NewTransaction ["2"] 9));
   BatcherDownstream.Do Batcher.Close;
   BatcherDownstream.Resolved 0 (Batcher.WholeError (ErrOther "E"))].

Lemma C1_resolved_at_most_once_witness :
  (exists ps,
     LineWriter.resolved LineWriterResolve.two_rounds
     = (fun p => (ResponseChan p.1, response.NewError p.2)) <$> ps /\
     (LineWriter.accepted LineWriterResolve.two_rounds = ps.*1 \/
      exists ts, LineWriter.accepted LineWriterResolve.two_rounds = ps.*1 ++ [ts] /\
                 (LineWriter.closedChan LineWriter.init = true ->
                  LineWriter.closeChan LineWriter.init = true))) /\
  (exists xs tail,
     ReaderRounds.chan_ops reader_shutdown
     = ReaderRounds.settled_rounds (Reader.NewReader 3) xs ++ tail /\
     Forall ReaderRounds.ack_as_line_205 xs /\
     ReaderRounds.awaiting (Reader.NewReader 3) reader_closed tail /\
     (Reader.closedChan reader_closed = true ->
      Reader.returned (Reader.at_pc reader_closed) = true) /\
     (Reader.returned (Reader.at_pc reader_closed) = true -> tail <> [] ->
      Reader.closeChan reader_closed = true \/
      Reader.RecvNotOpen ∈ reader_shutdown)) /\
  ((BatcherDownstream.results
      (BatcherDownstream.perform_all (Batcher.count_policy 3) batcher_acts)).*1
     ++ concat (Batcher.fanout <$>
                BatcherDownstream.waiting
                  (BatcherDownstream.perform_all (Batcher.count_policy 3)
                     batcher_acts))
     ++ Batcher.origins
          (BatcherDownstream.batcher
             (BatcherDownstream.perform_all (Batcher.count_policy 3)
                batcher_acts))
   ≡ₚ BatcherProofs.taken (Batcher.count_policy 3) Batcher.init
        (BatcherDownstream.events batcher_acts) /\
   (Batcher.closed
      (BatcherDownstream.batcher
         (BatcherDownstream.perform_all (Batcher.count_policy 3) batcher_acts))
    = true ->
    Batcher.pending
      (BatcherDownstream.batcher
         (BatcherDownstream.perform_all (Batcher.count_policy 3) batcher_acts))
    = [] /\
    Forall (fun t => Payload t = [])
      (Batcher.origins
         (BatcherDownstream.batcher
            (BatcherDownstream.perform_all (Batcher.count_policy 3)
               batcher_acts))))).
Proof.
  split; [|split].
  - apply (proj1 C1_resolved_at_most_once LineWriterResolve.w0
             LineWriterResolve.two_rounds LineWriter.init).
    vm_compute. reflexivity.
  - apply (proj1 (proj2 C1_resolved_at_most_once) (Reader.NewReader 3)
             reader_shutdown reader_closed).
    vm_compute. reflexivity.
  - apply (proj2 (proj2 C1_resolved_at_most_once) (Batcher.count_policy 3)
             batcher_acts).
    vm_compute. apply NoDup_singleton.
Defined.

(** C1, as stated, fails: the writer takes a Transaction and writes
    it; the shutdown is signalled; the select of line 148 takes its
    closeChan case; the writer returns and reports closed, and the
    Transaction it took has no resolution. *)
Lemma C1_counterexample :
  let ts := NewTransaction ["foo"] 7 in
  let w := LineWriter.NewLineWriter "" false in
  let tr := [LineWriter.LoadRunning true; LineWriter.Recv ts;
             LineWriter.Fprintf (LineWriter.rendered w ["foo"]) None;
             LineWriter.CloseAsync_cas; LineWriter.CloseAsync_close;
             LineWriter.CloseChan; LineWriter.CloseClosedChan] in
  LineWriter.closedChan <$> LineWriter.loop w tr = Some true /\
  LineWriter.accepted tr = [ts] /\
  LineWriter.resolved tr = [].
Proof. vm_compute. done. Qed.

End Resolution.

(** ** The state of the Reader along its runs *)

Module ReaderState.
Import types Reader ReaderProofs.

(** [Connected] (lines 229-231). *)
Definition Connected (s : state) : bool := connected s.

(** [WaitForClose] (lines 242-249) returns nil by receiving from
    closedChan, and ErrTimeout when the timer fires first. *)
Definition WaitForClose_returns (s : state) (e : error) : Prop :=
  (e = None /\ closedChan s = true) \/ e = Some ErrTimeout.

(** What holds of the fields at each program point. *)
Definition wf (s : state) : Prop :=
  (closeChan s = true -> running s = false) /\
  match at_pc s with
  | L117 | L123 | L127 | L144 | L156 =>
      connected s = false /\ transactions s = false /\ closedChan s = false
  | L143 | L153 =>
      connected s = false /\ transactions s = false /\ closedChan s = false /\
      err s <> None
  | L135 | L159 | L180 | L189 | L195 | L206 _ =>
      connected s = true /\ transactions s = false /\ closedChan s = false
  | L134 | L175 =>
      (connected s = true \/ running s = false) /\
      transactions s = false /\ closedChan s = false
  | L105 => transactions s = false /\ closedChan s = false
  | L111 =>
      connected s = false /\ transactions s = false /\ closedChan s = false
  | L112 =>
      connected s = false /\ transactions s = true /\ closedChan s = false
  | Returned =>
      connected s = false /\ transactions s = true /\ closedChan s = true
  end.

Lemma wf_init : wf init.
Proof. by repeat split. Qed.

Lemma wf_step r s e s' : wf s -> step r s e = Some s' -> wf s'.
Proof.
  intros [Hcc Hpc] Hstep. destruct s as [p m0 e0 rn cn th cc tc cd].
  unfold wf in *. simpl in Hcc, Hpc.
  destruct e, p; simpl in Hstep; try done; step_cases Hstep;
    destruct_and?; subst; simpl;
    try (split; [first [done | by intros; auto | intros [=]] |]);
    try done; try (by split_and?; auto); try (intuition congruence).
  all: by destruct rn.
Qed.

(** Induction over the runs of [loop]. *)
Lemma loop_ind r (P : list event -> state -> Prop) :
  P [] init ->
  (forall tr s e s',
     loop r tr = Some s -> P tr s -> step r s e = Some s' -> P (tr ++ [e]) s') ->
  forall tr s, loop r tr = Some s -> P tr s.
Proof.
  intros H0 Hs tr. induction tr as [|e tr IH] using rev_ind; intros s Hrun.
  - unfold loop in Hrun. simpl in Hrun. by simplify_eq.
  - unfold loop in Hrun. apply run_snoc in Hrun as (s1 & Hrun & Hstep).
    eapply Hs; [exact Hrun | by apply IH | done].
Qed.

Lemma loop_wf r tr s : loop r tr = Some s -> wf s.
Proof.
  revert tr s. apply (loop_ind r (fun _ s => wf s)); [apply wf_init|].
  intros tr s e s' _ Hwf Hstep. by eapply wf_step.
Qed.

(** [Connected] tells the truth at every interaction with the outside:
    it reports true whenever the loop sends a Transaction, receives a
    resolution or calls [Acknowledge], and false whenever the loop calls
    [Connect] and when it closes its channels. *)
Theorem Connected_at_each_interaction r tr s e s' :
  loop r tr = Some s -> step r s e = Some s' ->
  match e with
  | Send _ | Recv _ | Acknowledge _ _ => Connected s = true
  | Connect _ | CloseTransactions | CloseClosedChan => Connected s = false
  | _ => True
  end.
Proof.
  intros Hrun Hstep. destruct (loop_wf _ _ _ Hrun) as [_ Hpc].
  destruct s as [p m0 e0 rn cn th cc tc cd]. unfold Connected. simpl in *.
  destruct e, p; simpl in Hstep; try done; by destruct_and?.
Qed.

Definition r0 : Reader := NewReader 3.

Lemma Connected_at_each_interaction_witness :
  Connected
    {| at_pc := L189; msg := Some ["foo"]; err := None; running := true;
       connected := true; connThrot := throttle.New 0; closeChan := false;
       transactions := false; closedChan := false |} = true.
Proof.
  apply (Connected_at_each_interaction r0
           [Connect None; Reset; LoadRunning true; Read (Some ["foo"]) None;
            Reset]
           _ (Send (NewTransaction ["foo"] 3))
           {| at_pc := L195; msg := Some ["foo"]; err := None; running := true;
              connected := true; connThrot := throttle.New 0;
              closeChan := false; transactions := false;
              closedChan := false |}).
  - vm_compute. reflexivity.
  - vm_compute. reflexivity.
Defined.

(** The steps of [loop] that a run ends with once it has reached the
    close of its channels. *)
Definition closing_steps (s : state) : list event :=
  match at_pc s with
  | L111 => [WaitForClose None]
  | L112 => [WaitForClose None; CloseTransactions]
  | Returned => [WaitForClose None; CloseTransactions; CloseClosedChan]
  | _ => []
  end.

Lemma prog_snoc tr e :
  prog (tr ++ [e]) = prog tr ++ (if is_prog e then [e] else []).
Proof. unfold prog. rewrite List.filter_app. simpl. by destruct (is_prog e). Qed.

Lemma closing_steps_suffix r tr s :
  loop r tr = Some s -> exists a, prog tr = a ++ closing_steps s.
Proof.
  revert tr s. apply (loop_ind r (fun tr s => exists a, prog tr = a ++ closing_steps s)).
  { by exists []. }
  intros tr s e s' _ [a Ha] Hstep. rewrite prog_snoc, Ha.
  destruct s as [p m0 e0 rn cn th cc tc cd]. unfold closing_steps in *.
  destruct e, p; simpl in Hstep; try done; step_cases Hstep;
    rewrite ?app_nil_r;
    first [ by exists a
          | eexists; symmetry; apply app_nil_r
          | eexists; rewrite <- app_assoc; reflexivity
          | idtac ].
  all: try (exists (a ++ [WaitForClose (Some e1)]); by rewrite ?app_nil_r).
  all: try (eexists; by rewrite app_nil_r).
Qed.

(** When [WaitForClose] of the Reader returns nil the loop is over and
    nothing is left open: the adapter had reported that it has closed,
    the transactions channel was closed after that and before
    closedChan, and [Connected] reports false. *)
Theorem WaitForClose_nil_means_drained r tr s :
  loop r tr = Some s -> WaitForClose_returns s None ->
  at_pc s = Returned /\ transactions s = true /\ Connected s = false /\
  exists a, prog tr = a ++ [WaitForClose None; CloseTransactions; CloseClosedChan].
Proof.
  intros Hrun [[_ Hcd]|[=]].
  destruct (loop_wf _ _ _ Hrun) as [_ Hpc].
  destruct (closing_steps_suffix _ _ _ Hrun) as [a Ha].
  destruct s as [p m0 e0 rn cn th cc tc cd]. unfold Connected, closing_steps in *.
  simpl in *. subst cd.
  destruct p; destruct_and?; try done. split_and!; try done. by exists a.
Qed.

Lemma WaitForClose_nil_means_drained_witness :
  let tr := [Connect (Some ErrTypeClosed); WaitForClose None;
             CloseTransactions; CloseClosedChan] in
  let s := {| at_pc := Returned; msg := None; err := None; running := true;
              connected := false; connThrot := throttle.New 0;
              closeChan := false; transactions := true;
              closedChan := true |} in
  at_pc s = Returned /\ transactions s = true /\ Connected s = false /\
  exists a, prog tr = a ++ [WaitForClose None; CloseTransactions; CloseClosedChan].
Proof.
  apply (WaitForClose_nil_means_drained r0).
  - vm_compute. reflexivity.
  - left. by split.
Defined.

(** How often an event of a kind occurs in a trace. *)
Definition occurrences (f : event -> bool) (tr : list event) : nat :=
  length (List.filter f tr).

Definition is_cas (e : event) : bool :=
  match e with CloseAsync_cas => true | _ => false end.
Definition is_close_closeChan (e : event) : bool :=
  match e with CloseAsync_close => true | _ => false end.
Definition is_CloseTransactions (e : event) : bool :=
  match e with CloseTransactions => true | _ => false end.
Definition is_CloseClosedChan (e : event) : bool :=
  match e with CloseClosedChan => true | _ => false end.

Lemma occurrences_snoc f tr e :
  occurrences f (tr ++ [e]) = occurrences f tr + (if f e then 1 else 0).
Proof.
  unfold occurrences. rewrite List.filter_app, length_app. simpl.
  by destruct (f e).
Qed.

(** No channel is closed twice, however often [CloseAsync] is called and
    whatever the adapter answers: in every run of [loop] with concurrent
    calls of [CloseAsync], closeChan, the transactions channel and
    closedChan are each closed at most once, exactly when the state says
    they are closed, and the swap of [running] succeeds at most once. *)
Theorem channels_closed_at_most_once r tr s :
  loop r tr = Some s ->
  occurrences is_cas tr = (if running s then 0 else 1) /\
  occurrences is_close_closeChan tr = (if closeChan s then 1 else 0) /\
  occurrences is_CloseTransactions tr = (if transactions s then 1 else 0) /\
  occurrences is_CloseClosedChan tr = (if closedChan s then 1 else 0).
Proof.
  revert tr s.
  apply (loop_ind r (fun tr s =>
    occurrences is_cas tr = (if running s then 0 else 1) /\
    occurrences is_close_closeChan tr = (if closeChan s then 1 else 0) /\
    occurrences is_CloseTransactions tr = (if transactions s then 1 else 0) /\
    occurrences is_CloseClosedChan tr = (if closedChan s then 1 else 0))).
  { done. }
  intros tr s e s' Hrun (H1 & H2 & H3 & H4) Hstep.
  destruct (loop_wf _ _ _ Hrun) as [_ Hpc].
  rewrite !occurrences_snoc, H1, H2, H3, H4. clear H1 H2 H3 H4 Hrun.
  destruct s as [p m0 e0 rn cn th cc tc cd]. simpl in *.
  destruct e, p; simpl in Hstep; try done; step_cases Hstep;
    destruct_and?; subst; simpl; rewrite ?Nat.add_0_r; try done.
  all: try (destruct rn, cc; simpl in *; done).
Qed.

Lemma channels_closed_at_most_once_witness :
  let tr := [CloseAsync_cas; Connect (Some ErrTypeClosed); CloseAsync_close;
             WaitForClose None; CloseTransactions; CloseClosedChan] in
  let s := {| at_pc := Returned; msg := None; err := None; running := false;
              connected := false; connThrot := throttle.New 0;
              closeChan := true; transactions := true;
              closedChan := true |} in
  occurrences is_cas tr = (if running s then 0 else 1) /\
  occurrences is_close_closeChan tr = (if closeChan s then 1 else 0) /\
  occurrences is_CloseTransactions tr = (if transactions s then 1 else 0) /\
  occurrences is_CloseClosedChan tr = (if closedChan s then 1 else 0).
Proof.
  apply (channels_closed_at_most_once r0). vm_compute. reflexivity.
Defined.

(** How many steps of its [for] statements the loop can still make at a
    program point once the shutdown has been signalled. *)
Definition steps_left (p : pc) : nat :=
  match p with
  | L105 | L111 | L112 | Returned => 0
  | L123 | L134 | L153 | L175 => 1
  | L127 | L143 | L206 _ => 2
  | L117 | L195 => 3
  | L189 => 4
  | L180 => 5
  | L135 | L159 => 6
  | L156 => 7
  | L144 => 8
  end.

(** The steps of the [for] statements, as opposed to those of the
    deferred function and of [CloseAsync]. *)
Definition is_loop_step (e : event) : bool :=
  match e with
  | CloseAsync_cas | CloseAsync_close | WaitForClose _ | CloseTransactions
  | CloseClosedChan => false
  | _ => true
  end.

Lemma shutdown_step r s e s' :
  wf s -> closeChan s = true -> step r s e = Some s' ->
  closeChan s' = true /\
  (if is_loop_step e then 1 else 0) + steps_left (at_pc s')
  <= steps_left (at_pc s).
Proof.
  intros [Hcc Hpc] Hc Hstep. specialize (Hcc Hc).
  destruct s as [p m0 e0 rn cn th cc tc cd]. simpl in *. subst.
  destruct e, p; simpl in Hstep; try done; step_cases Hstep;
    simpl; split; try done; try lia.
  all: destruct_and?; intuition congruence.
Qed.

Lemma shutdown_run r k : forall s s',
  wf s -> closeChan s = true -> run r s k = Some s' ->
  occurrences is_loop_step k + steps_left (at_pc s') <= steps_left (at_pc s).
Proof.
  induction k as [|e k IH]; intros s s' Hwf Hc Hrun; simpl in Hrun.
  - simplify_eq. unfold occurrences. simpl. lia.
  - destruct (step r s e) as [s1|] eqn:Hstep; [|done].
    destruct (shutdown_step _ _ _ _ Hwf Hc Hstep) as [Hc1 Hle].
    pose proof (IH _ _ (wf_step _ _ _ _ Hwf Hstep) Hc1 Hrun) as IH1.
    change (e :: k) with ([e] ++ k).
    unfold occurrences in *. rewrite List.filter_app, length_app. simpl.
    destruct (is_loop_step e); simpl in *; lia.
Qed.

(** The shutdown is prompt: once [CloseAsync] has closed closeChan,
    whatever the adapter and the channels answer from then on, the loop
    makes at most eight more steps in its [for] statements (at most
    [steps_left] of where it stands) before it is in its deferred
    function. *)
Theorem shutdown_within_eight_steps r tr s k s' :
  loop r tr = Some s -> closeChan s = true -> run r s k = Some s' ->
  occurrences is_loop_step k <= steps_left (at_pc s) /\
  steps_left (at_pc s) <= 8.
Proof.
  intros Hrun Hc Hk.
  pose proof (shutdown_run r k s s' (loop_wf _ _ _ Hrun) Hc Hk).
  split; [lia|]. destruct (at_pc s); simpl; lia.
Qed.

Lemma shutdown_within_eight_steps_witness :
  occurrences is_loop_step
    [Connect None; Read (Some ["foo"]) None; Reset; Reset;
     Send (NewTransaction ["foo"] 3); Recv (mkResponse None false);
     Acknowledge None None; LoadRunning false; WaitForClose None]
  <= steps_left L144 /\ steps_left L144 <= 8.
Proof.
  apply (shutdown_within_eight_steps r0
           [Connect None; Reset; LoadRunning true;
            Read None (Some ErrNotConnected); LoadRunning true;
            CloseAsync_cas; CloseAsync_close]
           {| at_pc := L144; msg := None; err := Some ErrNotConnected;
              running := false; connected := false;
              connThrot := throttle.New 0; closeChan := true;
              transactions := false; closedChan := false |}
           _
           {| at_pc := L111; msg := Some ["foo"]; err := None;
              running := false; connected := false;
              connThrot := throttle.New 0; closeChan := true;
              transactions := false; closedChan := false |}).
  - vm_compute. reflexivity.
  - reflexivity.
  - vm_compute. reflexivity.
Defined.

End ReaderState.

(** ** How the Reader connects, reconnects and retries *)

Module ReaderConnect.
Import types Reader ReaderProofs.

(** Failed attempts to connect, each followed by its wait in the
    throttle. *)
Definition attempts (errs : list Err) : list event :=
  flat_map (fun x => [Connect (Some x); Retry true]) errs.

Definition not_closed (x : Err) : Prop := x <> ErrTypeClosed.

Lemma attempts_snoc errs x :
  attempts (errs ++ [x]) = attempts errs ++ [Connect (Some x); Retry true].
Proof. unfold attempts. by rewrite flat_map_app. Qed.

(** Lines 116-134: where the loop can be, and which calls it has made,
    before its first [Read]. *)
Definition connecting (s : state) (o : list event) : Prop :=
  match at_pc s with
  | L117 => exists errs, o = attempts errs /\ Forall not_closed errs
  | L123 =>
      exists errs x, o = attempts errs ++ [Connect (Some x)] /\
                     Forall not_closed (errs ++ [x])
  | L127 | L134 | L135 =>
      exists errs, o = attempts errs ++ [Connect None] /\
                   Forall not_closed errs
  | L105 | L111 | L112 | Returned => True
  | _ => False
  end.

Lemma connecting_step r s o e s' :
  connecting s o -> is_Read e = false -> step r s e = Some s' ->
  connecting s' (o ++ List.filter is_call [e]).
Proof.
  intros HI He Hstep. destruct s as [p m0 e0 rn cn th cc tc cd].
  unfold connecting in HI. simpl in HI.
  destruct e, p; simpl in He, Hstep; try done;
    step_cases Hstep; unfold connecting; simpl;
    rewrite ?app_nil_r; try done.
  all: try (destruct HI as (errs & x & -> & Herrs)).
  all: try (destruct HI as (errs & -> & Herrs)).
  all: try (eexists; split; [reflexivity|done]; fail).
  all: try (eexists _, _; split; [reflexivity|];
            apply Forall_app; split; [done|]; by constructor).
  all: exists (errs ++ [x]); by rewrite attempts_snoc, <- app_assoc.
Qed.

(** The first connection (lines 116-132).  Before its first [Read] the
    loop has called [Connect] until it succeeded: every failed attempt
    (with an error other than ErrTypeClosed) is followed by one wait in
    the throttle, the successful attempt is the last call, nothing has
    been emitted. *)
Theorem first_Read_after_successful_Connect r tr m e s :
  loop r (tr ++ [Read m e]) = Some s -> no_Read tr ->
  exists errs,
    calls tr = attempts errs ++ [Connect None] /\ Forall not_closed errs.
Proof.
  intros Hrun Hk. unfold loop in *.
  apply run_snoc in Hrun as (s1 & Hrun & Hread).
  assert (connecting init []) as H0.
  { by exists []. }
  pose proof (stretch r is_call connecting (connecting_step r)
                tr init [] s1 H0 Hk Hrun) as HI.
  simpl in HI. unfold connecting in HI.
  destruct s1 as [p m0 e0 rn cn th cc tc cd]. simpl in *.
  destruct p; simpl in Hread, HI; done.
Qed.

Definition r0 : Reader := NewReader 3.

Lemma first_Read_after_successful_Connect_witness :
  exists errs,
    calls [Connect (Some (ErrOther "refused")); Retry true;
           Connect (Some ErrTimeout); Retry true;
           Connect None; Reset; LoadRunning true]
    = attempts errs ++ [Connect None] /\
    Forall not_closed errs.
Proof.
  eapply (first_Read_after_successful_Connect r0
           [Connect (Some (ErrOther "refused")); Retry true;
            Connect (Some ErrTimeout); Retry true;
            Connect None; Reset; LoadRunning true]
           None (Some ErrNotConnected)).
  - vm_compute. reflexivity.
  - repeat constructor.
Defined.

(** Lines 143-162: where the loop can be, and which calls it has made,
    since a [Read] returned ErrNotConnected and before it reads again.
    Once the reconnect loop has been left because [running] is 0, the
    loop does not read again. *)
Definition reconnecting (s : state) (o : list event) : Prop :=
  match at_pc s with
  | L143 =>
      (exists errs, o = attempts errs /\ Forall not_closed errs) /\
      err s <> None /\ err s <> Some ErrTypeClosed /\ connected s = false
  | L144 =>
      (exists errs, o = attempts errs /\ Forall not_closed errs) /\
      connected s = false
  | L153 =>
      (exists errs x, o = attempts errs ++ [Connect (Some x)] /\
                      Forall not_closed (errs ++ [x])) /\
      err s <> None /\ err s <> Some ErrTypeClosed /\ connected s = false
  | L156 =>
      (exists errs, o = attempts errs ++ [Connect None] /\
                    Forall not_closed errs) /\
      connected s = false
  | L134 | L175 => running s = false
  | L105 | L111 | L112 | Returned => True
  | _ => False
  end.

Lemma reconnecting_start r s m s' :
  ReaderState.wf s ->
  step r s (Read m (Some ErrNotConnected)) = Some s' -> reconnecting s' [].
Proof.
  intros [_ Hwf] Hstep. destruct s as [p m0 e0 rn cn th cc tc cd].
  simpl in Hwf.
  destruct p; simpl in Hstep; try done; step_cases Hstep;
    unfold reconnecting; simpl; try done.
  all: split_and!; try done; try (exists []; by split).
  by destruct Hwf.
Qed.

Lemma reconnecting_step r s o e s' :
  reconnecting s o -> is_Read e = false -> step r s e = Some s' ->
  reconnecting s' (o ++ List.filter is_call [e]).
Proof.
  intros HI He Hstep. destruct s as [p m0 e0 rn cn th cc tc cd].
  unfold reconnecting in HI. simpl in HI.
  destruct e, p; simpl in He, Hstep; try done;
    step_cases Hstep; unfold reconnecting; simpl;
    rewrite ?app_nil_r; try done.
  all: try (destruct HI as ((errs & x & -> & Herrs) & ? & ? & ?)).
  all: try (destruct HI as ((errs & -> & Herrs) & ? & ? & ?)).
  all: try (destruct HI as ((errs & -> & Herrs) & ?)).
  all: try (split_and!; try done; eexists; split; [reflexivity|done]; fail).
  all: try (split_and!; try done; eexists _, _; split; [reflexivity|];
            apply Forall_app; split; [done|]; by constructor).
  all: try (intuition congruence).
  split_and!; try done. exists (errs ++ [x]).
  by rewrite attempts_snoc, <- app_assoc.
Qed.

(** A lost connection (lines 138-162).  After a [Read] that returned
    ErrNotConnected the loop reads again only after a [Connect] that
    succeeded: in between it has called [Connect] until it succeeded,
    every failed attempt (with an error other than ErrTypeClosed) is
    followed by one wait in the throttle, the successful attempt is the
    last call, and the Reader reports itself as not connected up to
    that [Read]. *)
Theorem reconnects_before_next_Read r tr m k m' e' s0 s :
  loop r (tr ++ [Read m (Some ErrNotConnected)] ++ k) = Some s0 ->
  step r s0 (Read m' e') = Some s ->
  no_Read k ->
  exists errs,
    calls k = attempts errs ++ [Connect None] /\
    Forall not_closed errs /\
    connected s0 = false.
Proof.
  intros Hrun Hnext Hk. unfold loop in *.
  apply reader_run_app in Hrun as (s1 & Htr & Hrun).
  apply reader_run_app in Hrun as (s2 & Hread & Hrun).
  apply run_one in Hread.
  pose proof (stretch r is_call reconnecting (reconnecting_step r)
                k s2 [] s0
                (reconnecting_start _ _ _ _ (ReaderState.loop_wf _ _ _ Htr) Hread)
                Hk Hrun) as HI.
  simpl in HI. unfold reconnecting in HI.
  destruct s0 as [p m0 e0 rn cn th cc tc cd]. simpl in *.
  destruct p; simpl in Hnext, HI; try done.
  destruct HI as ((errs & ? & ?) & ?). by exists errs.
Qed.

Definition lost_and_found : list event :=
  [LoadRunning true; Connect (Some (ErrOther "refused")); Retry true;
   LoadRunning true; Connect None].

Lemma reconnects_before_next_Read_witness :
  exists errs,
    calls lost_and_found = attempts errs ++ [Connect None] /\
    Forall not_closed errs /\
    connected
      {| at_pc := L156; msg := None; err := None; running := true;
         connected := false; connThrot := throttle.New 1;
         closeChan := false; transactions := false; closedChan := false |}
    = false.
Proof.
  apply (reconnects_before_next_Read r0
           [Connect None; Reset; LoadRunning true] None lost_and_found
           (Some ["foo"]) None _
           {| at_pc := L159; msg := Some ["foo"]; err := None;
              running := true; connected := true;
              connThrot := throttle.New 1; closeChan := false;
              transactions := false; closedChan := false |}).
  - vm_compute. reflexivity.
  - vm_compute. reflexivity.
  - repeat constructor.
Defined.

(** The condition of line 170 on a result of [Read] that is neither
    ErrNotConnected nor ErrTypeClosed: an error, or no message. *)
Definition failed_read (m : option Message) (e : error) : Prop :=
  e <> Some ErrNotConnected /\ e <> Some ErrTypeClosed /\
  (e <> None \/ m = None).

(** Lines 165-178: where the loop can be, and which calls it has made,
    since a [Read] failed and before it reads again. *)
Definition after_failed_read (s : state) (o : list event) : Prop :=
  match at_pc s with
  | L159 => o = [] /\ failed_read (msg s) (err s)
  | L175 => o = []
  | L134 | L135 => o = [Retry true]
  | L105 | L111 | L112 | Returned => True
  | _ => False
  end.

Lemma after_failed_read_start r s m e s' :
  failed_read m e ->
  step r s (Read m e) = Some s' -> after_failed_read s' [].
Proof.
  intros (H1 & H2 & H3) Hstep. destruct s as [p m0 e0 rn cn th cc tc cd].
  destruct p; simpl in Hstep; try done; step_cases Hstep;
    unfold after_failed_read, failed_read; simpl; try done.
  all: intuition congruence.
Qed.

Lemma after_failed_read_step r s o e s' :
  after_failed_read s o -> is_Read e = false -> step r s e = Some s' ->
  after_failed_read s' (o ++ List.filter is_call [e]).
Proof.
  intros HI He Hstep. destruct s as [p m0 e0 rn cn th cc tc cd].
  unfold after_failed_read, failed_read in HI. simpl in HI.
  destruct e, p; simpl in He, Hstep; try done;
    step_cases Hstep; unfold after_failed_read, failed_read; simpl;
    rewrite ?app_nil_r; try done.
  all: try (destruct_and?; simplify_eq; intuition congruence).
Qed.

(** A failed read (lines 165-178).  When [Read] returns an error other
    than ErrNotConnected and ErrTypeClosed, or returns no message and
    no error, the loop emits nothing and does not reconnect: before it
    reads again it waits once in the throttle, and that wait is its
    only call. *)
Theorem failed_Read_waits_once r tr m e k m' e' s :
  loop r (tr ++ [Read m e] ++ k ++ [Read m' e']) = Some s ->
  failed_read m e -> no_Read k ->
  calls k = [Retry true].
Proof.
  intros Hrun Hf Hk. unfold loop in *.
  apply reader_run_app in Hrun as (s1 & _ & Hrun).
  apply reader_run_app in Hrun as (s2 & Hread & Hrun).
  apply run_snoc in Hrun as (s3 & Hrun & Hnext).
  apply run_one in Hread.
  pose proof (stretch r is_call after_failed_read (after_failed_read_step r)
                k s2 [] s3 (after_failed_read_start _ _ _ _ _ Hf Hread)
                Hk Hrun) as HI.
  simpl in HI. unfold after_failed_read in HI.
  destruct s3 as [p m0 e0 rn cn th cc tc cd]. simpl in *.
  destruct p; simpl in Hnext, HI; done.
Qed.

Lemma failed_Read_waits_once_witness :
  calls [Retry true; LoadRunning true] = [Retry true].
Proof.
  eapply (failed_Read_waits_once r0
           [Connect None; Reset; LoadRunning true] None None
           [Retry true; LoadRunning true] (Some ["foo"]) None).
  - vm_compute. reflexivity.
  - unfold failed_read. split_and!; [done|done|by right].
  - repeat constructor.
Defined.

(** Events between a [Read] and the emission of what it returned: no
    other [Read] and no other emission. *)
Definition quiet (k : list event) : Prop :=
  Forall (fun e => match e with Read _ _ | Send _ => False | _ => True end) k.

(** Which [Read] the loop holds at each program point from which it can
    reach the send of line 190. *)
Definition holds_read (tr : list event) (s : state) : Prop :=
  match at_pc s with
  | L159 =>
      exists tr1 k, tr = tr1 ++ [Read (msg s) (err s)] ++ k /\ quiet k
  | L180 | L189 =>
      exists tr1 k m, tr = tr1 ++ [Read (Some m) None] ++ k /\ quiet k /\
                      msg s = Some m
  | _ => True
  end.

Lemma quiet_snoc k e :
  quiet k -> match e with Read _ _ | Send _ => False | _ => True end ->
  quiet (k ++ [e]).
Proof. intros. apply Forall_app. split; [done|]. by constructor. Qed.

Lemma holds_read_step r tr s e s' :
  ReaderState.wf s ->
  holds_read tr s -> step r s e = Some s' -> holds_read (tr ++ [e]) s'.
Proof.
  intros [_ Hwf] HI Hstep. destruct s as [p m0 e0 rn cn th cc tc cd].
  unfold holds_read in HI. simpl in HI, Hwf.
  destruct e, p; simpl in Hstep; try done;
    step_cases Hstep; unfold holds_read; simpl; try done.
  all: try (destruct HI as (tr1 & k & m1 & -> & Hq & ?)).
  all: try (destruct HI as (tr1 & k & -> & Hq)).
  all: rewrite <- ?app_assoc.
  all: try (eexists _, _, _; split_and!; [reflexivity|by apply quiet_snoc|done..]; fail).
  all: try (eexists _, _; split_and!; [reflexivity|by apply quiet_snoc]; fail).
  all: try (exists tr, []; split; [done|constructor]; fail).
  - destruct e as [x|]; [by destruct n1; left|].
    destruct m as [m1|]; [|by destruct n1; right].
    exists tr, [], m1. split_and!; [done|constructor|done].
  - destruct e0 as [x|]; [by destruct n0; left|].
    destruct m0 as [m1|]; [|by destruct n0; right].
    exists tr1, (k ++ [Reset]), m1.
    split_and!; [done|by apply quiet_snoc|done].
  - destruct Hwf as (_ & _ & _ & Herr). destruct n0. by left.
Qed.

Lemma loop_holds_read r tr s : loop r tr = Some s -> holds_read tr s.
Proof.
  revert tr s. apply (ReaderState.loop_ind r holds_read); [done|].
  intros tr s e s' Hrun HI Hstep.
  eapply holds_read_step; [|done|done]. by eapply ReaderState.loop_wf.
Qed.

(** What is emitted (lines 180-190).  Every Transaction the loop sends
    carries the message of the latest [Read], which returned that
    message without an error, and the Reader's own response channel;
    nothing was read or sent in between, so no message is emitted
    twice and none is made up. *)
Theorem Send_carries_latest_Read r tr ts s :
  loop r (tr ++ [Send ts]) = Some s ->
  exists tr1 k m,
    tr = tr1 ++ [Read (Some m) None] ++ k /\ quiet k /\
    ts = NewTransaction m (responses r).
Proof.
  intros Hrun. unfold loop in Hrun.
  apply run_snoc in Hrun as (s1 & Hrun & Hsend).
  pose proof (loop_holds_read _ _ _ Hrun) as HI.
  unfold holds_read in HI.
  destruct s1 as [p m0 e0 rn cn th cc tc cd]. simpl in *.
  destruct p; simpl in Hsend, HI; try done.
  destruct HI as (tr1 & k & m & -> & Hq & ->).
  step_cases Hsend. by exists tr1, k, m.
Qed.

Lemma Send_carries_latest_Read_witness :
  exists tr1 k m,
    [Connect None; Reset; LoadRunning true; Read (Some ["foo"]) None; Reset]
    = tr1 ++ [Read (Some m) None] ++ k /\ quiet k /\
    NewTransaction ["foo"] 3 = NewTransaction m (responses r0).
Proof.
  eapply (Send_carries_latest_Read r0
           [Connect None; Reset; LoadRunning true; Read (Some ["foo"]) None;
            Reset]).
  vm_compute. reflexivity.
Defined.

End ReaderConnect.

(** ** The LineWriter and its handle *)

Module LineWriterState.
Import types LineWriter LineWriterProofs.

#[local] Arguments rendered : simpl never.

(** What the loop does to the handle and to closedChan. *)
Definition is_handle_op (e : event) : bool :=
  match e with
  | Fprintf _ _ | HandleClose | CloseClosedChan => true
  | _ => false
  end.

Definition handle_ops (tr : list event) : list event :=
  List.filter is_handle_op tr.

Definition is_Fprintf (e : event) : bool :=
  match e with Fprintf _ _ => true | _ => false end.

Definition writes (tr : list event) : list event := List.filter is_Fprintf tr.

(** Lines 99-101. *)
Definition close_handle (w : LineWriter) : list event :=
  if closeOnExit w then [HandleClose] else [].

(** What the deferred function has done at each program point. *)
Definition closing_ops (w : LineWriter) (p : pc) : list event :=
  match p with
  | L104 => close_handle w
  | Returned => close_handle w ++ [CloseClosedChan]
  | _ => []
  end.

Definition wf (w : LineWriter) (s : state) : Prop :=
  (closeChan s = true -> running s = false) /\
  (closedChan s = true <-> at_pc s = Returned) /\
  (at_pc s = L100 -> closeOnExit w = true).

Lemma writer_wf_init w : wf w init.
Proof. by split_and!. Qed.

Ltac writer_cases Hstep :=
  unfold step, deferred, goto in Hstep; simpl in Hstep;
  repeat match type of Hstep with
         | context [decide ?P] => destruct (decide P)
         | context [if ?b then _ else _] => destruct b eqn:?
         end;
  simplify_eq; simpl in *.

Lemma writer_wf_step w s e s' : wf w s -> step w s e = Some s' -> wf w s'.
Proof.
  intros (H1 & H2 & H3) Hstep. destruct s as [p rn cc cd]. simpl in *.
  destruct e, p; simpl in Hstep; try done; writer_cases Hstep;
    unfold wf; simpl; split_and!; try done; try tauto.
  all: try (by destruct rn).
  all: split; [|done]; intros ->; by apply proj1 in H2; specialize (H2 eq_refl).
Qed.

Lemma writer_loop_ind w (P : list event -> state -> Prop) :
  P [] init ->
  (forall tr s e s',
     loop w tr = Some s -> P tr s -> step w s e = Some s' ->
     P (tr ++ [e]) s') ->
  forall tr s, loop w tr = Some s -> P tr s.
Proof.
  intros H0 Hs tr. induction tr as [|e tr IH] using rev_ind; intros s Hrun.
  - unfold loop in Hrun. simpl in Hrun. by simplify_eq.
  - unfold loop in Hrun. rewrite writer_run_app in Hrun.
    destruct (run w init tr) as [s1|] eqn:Hrun1; [|done].
    simpl in Hrun. destruct (step w s1 e) as [s2|] eqn:Hstep; [|done].
    simplify_eq. by eapply Hs; [|apply IH|].
Qed.

Lemma writer_loop_wf w tr s : loop w tr = Some s -> wf w s.
Proof.
  revert tr s. apply (writer_loop_ind w (fun _ s => wf w s)); [apply writer_wf_init|].
  intros tr s e s' _ Hwf Hstep. by eapply writer_wf_step.
Qed.

Lemma handle_ops_snoc tr e :
  handle_ops (tr ++ [e]) = handle_ops tr ++ (if is_handle_op e then [e] else []).
Proof.
  unfold handle_ops. rewrite List.filter_app. simpl. by destruct (is_handle_op e).
Qed.

Lemma writes_snoc tr e :
  writes (tr ++ [e]) = writes tr ++ (if is_Fprintf e then [e] else []).
Proof.
  unfold writes. rewrite List.filter_app. simpl. by destruct (is_Fprintf e).
Qed.

Lemma loop_handle_ops w tr s :
  loop w tr = Some s ->
  handle_ops tr = writes tr ++ closing_ops w (at_pc s).
Proof.
  revert tr s.
  apply (writer_loop_ind w (fun tr s =>
           handle_ops tr = writes tr ++ closing_ops w (at_pc s))); [done|].
  intros tr s e s' Hrun HI Hstep.
  destruct (writer_loop_wf _ _ _ Hrun) as (_ & _ & H100).
  rewrite handle_ops_snoc, writes_snoc, HI. clear HI Hrun.
  destruct s as [p rn cc cd]. simpl in *.
  destruct e, p; simpl in Hstep; try done; writer_cases Hstep;
    unfold close_handle; rewrite ?app_nil_r; try done.
  all: try (by rewrite H100).
  all: try (by rewrite <- app_assoc).
  all: match goal with H : closeOnExit _ = false |- _ => rewrite H end.
  all: by rewrite app_nil_r.
Qed.

(** The outcomes of [WaitForClose] (lines 180-187): nil when closedChan
    is closed, ErrTimeout when the timer fires first. *)
Definition WaitForClose_returns (s : state) (e : error) : Prop :=
  (e = None /\ closedChan s = true) \/ e = Some ErrTimeout.

(** When [WaitForClose] of the LineWriter returns nil, the loop has
    returned; all it ever did to its handle is the writes, then, if and
    only if the writer was built with closeOnExit, one [Close], and
    last the close of closedChan: it never writes to a closed handle,
    never closes the handle twice and never closes a handle it does not
    own. *)
Theorem WaitForClose_nil_after_handle_closed w tr s :
  loop w tr = Some s -> WaitForClose_returns s None ->
  at_pc s = Returned /\
  handle_ops tr = writes tr ++ close_handle w ++ [CloseClosedChan].
Proof.
  intros Hrun [[_ Hc]|?]; [|done].
  destruct (writer_loop_wf _ _ _ Hrun) as (_ & Hret & _).
  apply Hret in Hc. split; [done|].
  by rewrite (loop_handle_ops _ _ _ Hrun), Hc.
Qed.

Definition w1 : LineWriter := NewLineWriter "" true.

Definition written_and_closed : list event :=
  [LoadRunning true; Recv (NewTransaction ["foo"] 7);
   Fprintf (rendered w1 ["foo"]) None; Send 7 (response.NewError None);
   LoadRunning true; RecvNotOpen; HandleClose; CloseClosedChan].

Lemma WaitForClose_nil_after_handle_closed_witness :
  at_pc {| at_pc := Returned; running := true; closeChan := false;
           closedChan := true |} = Returned /\
  handle_ops written_and_closed
  = writes written_and_closed ++ close_handle w1 ++ [CloseClosedChan].
Proof.
  apply (WaitForClose_nil_after_handle_closed w1 written_and_closed).
  - vm_compute. reflexivity.
  - left. split; reflexivity.
Defined.

(** How many steps the loop can still make at a program point once
    the shutdown has been signalled, and how many writes. *)
Definition steps_left (p : pc) : nat :=
  match p with
  | Returned => 0
  | L104 => 1
  | L100 => 2
  | L113 => 3
  | L148 _ _ => 4
  | L130 _ => 5
  | L116 => 6
  end.

Definition writes_left (p : pc) : nat :=
  match p with
  | L116 | L130 _ => 1
  | _ => 0
  end.

Lemma shutdown_writer_step w s e s' :
  wf w s -> closeChan s = true -> step w s e = Some s' ->
  closeChan s' = true /\
  1 + steps_left (at_pc s') <= steps_left (at_pc s) /\
  (if is_Fprintf e then 1 else 0) + writes_left (at_pc s')
  <= writes_left (at_pc s).
Proof.
  intros (Hcc & _ & _) Hc Hstep. specialize (Hcc Hc).
  destruct s as [p rn cc cd]. simpl in *. subst.
  destruct e, p; simpl in Hstep; try done; writer_cases Hstep;
    split_and!; try done; lia.
Qed.

Lemma shutdown_writer_run w k : forall s s',
  wf w s -> closeChan s = true -> run w s k = Some s' ->
  length k + steps_left (at_pc s') <= steps_left (at_pc s) /\
  length (writes k) + writes_left (at_pc s') <= writes_left (at_pc s).
Proof.
  induction k as [|e k IH]; intros s s' Hwf Hc Hrun; simpl in Hrun.
  - simplify_eq. simpl. lia.
  - destruct (step w s e) as [s1|] eqn:Hstep; [|done].
    destruct (shutdown_writer_step _ _ _ _ Hwf Hc Hstep) as (Hc1 & Hle & Hwr).
    destruct (IH _ _ (writer_wf_step _ _ _ _ Hwf Hstep) Hc1 Hrun) as [IH1 IH2].
    unfold writes in *. simpl.
    destruct (is_Fprintf e); simpl in *; lia.
Qed.

(** The way out of the loop that needs no Transaction and no write. *)
Definition way_out (w : LineWriter) (p : pc) : list event :=
  match p with
  | L113 => [LoadRunning false] ++ close_handle w ++ [CloseClosedChan]
  | L116 => [CloseChan] ++ close_handle w ++ [CloseClosedChan]
  | L130 ts =>
      [Fprintf (rendered w (Payload ts)) None; CloseChan] ++
      close_handle w ++ [CloseClosedChan]
  | L148 _ _ => [CloseChan] ++ close_handle w ++ [CloseClosedChan]
  | L100 => [HandleClose; CloseClosedChan]
  | L104 => [CloseClosedChan]
  | Returned => []
  end.

(** The shutdown of the LineWriter is prompt.  Once [CloseAsync] has
    closed closeChan the loop makes at most six more steps, whatever
    its environment does, among them at most one write (of a
    Transaction it may still take), and it can always run to its end,
    where closedChan is closed. *)
Theorem writer_shutdown_within_six_steps w tr s :
  loop w tr = Some s -> closeChan s = true ->
  (forall k s', run w s k = Some s' ->
                length k <= 6 /\ length (writes k) <= 1) /\
  exists s', run w s (way_out w (at_pc s)) = Some s' /\
             closedChan s' = true.
Proof.
  intros Hrun Hc. pose proof (writer_loop_wf _ _ _ Hrun) as Hwf. split.
  - intros k s' Hk.
    destruct (shutdown_writer_run w k s s' Hwf Hc Hk) as [H1 H2].
    assert (steps_left (at_pc s) <= 6) by (destruct (at_pc s); simpl; lia).
    assert (writes_left (at_pc s) <= 1) by (destruct (at_pc s); simpl; lia).
    lia.
  - destruct Hwf as (Hcc & Hret & H100). specialize (Hcc Hc).
    destruct s as [p rn cc cd]. simpl in *. subst.
    destruct p; unfold way_out, close_handle;
      destruct (closeOnExit w) eqn:Hx; simpl;
      unfold deferred, goto; simpl; rewrite ?Hx; simpl;
      rewrite ?decide_True by done; simpl; rewrite ?Hx; simpl;
      try (eexists; split; [reflexivity|done]).
    all: eexists; split; [reflexivity|]; by apply Hret.
Qed.

Lemma writer_shutdown_within_six_steps_witness :
  let s := {| at_pc := L116; running := false; closeChan := true;
              closedChan := false |} in
  (forall k s', run w1 s k = Some s' ->
                length k <= 6 /\ length (writes k) <= 1) /\
  exists s', run w1 s (way_out w1 (at_pc s)) = Some s' /\
             closedChan s' = true.
Proof.
  apply (writer_shutdown_within_six_steps w1
           [LoadRunning true; CloseAsync_cas; CloseAsync_close]).
  - vm_compute. reflexivity.
  - reflexivity.
Defined.

#[local] Arguments String.append !_ _ / : simpl nomatch.

Lemma string_app_assoc (a b c : string) : (a +:+ b) +:+ c = a +:+ b +:+ c.
Proof. induction a as [|x a IH]; simpl; [done|]. by rewrite IH. Qed.

Lemma string_app_nil_r (a : string) : a +:+ "" = a.
Proof. induction a as [|x a IH]; simpl; [done|]. by rewrite IH. Qed.

(** The bytes written when each part goes out as a message of its
    own. *)
Definition one_by_one (w : LineWriter) (ps : list Part) : string :=
  foldr (fun p acc => rendered w [p] +:+ acc) "" ps.

Lemma Join_one_by_one w p ps :
  Join (p :: ps) (delim w) +:+ delim w = one_by_one w (p :: ps).
Proof.
  revert p. induction ps as [|q ps IH]; intros p.
  - unfold one_by_one, rendered. simpl. by rewrite string_app_nil_r.
  - change (Join (p :: q :: ps) (delim w))
      with (p +:+ delim w +:+ Join (q :: ps) (delim w)).
    rewrite !string_app_assoc, IH.
    unfold one_by_one, rendered. simpl. by rewrite !string_app_assoc.
Qed.

Lemma one_by_one_app w ps qs :
  one_by_one w (ps ++ qs) = one_by_one w ps +:+ one_by_one w qs.
Proof.
  induction ps as [|p ps IH]; [done|].
  unfold one_by_one in *. simpl. by rewrite IH, string_app_assoc.
Qed.

(** The framing of lines 130-134.  A message of two or more parts is
    written as the very bytes that its parts, each sent as a message of
    its own, followed by a message with one empty part, would give: a
    reader of the output cannot tell the two apart, and the end of a
    batch is an empty line. *)
Theorem rendered_batch_is_parts_then_empty w ps :
  1 < length ps -> rendered w ps = one_by_one w (ps ++ [""]).
Proof.
  intros Hlen. destruct ps as [|p [|q ps]]; simpl in Hlen; try lia.
  rewrite one_by_one_app, <- Join_one_by_one.
  unfold rendered at 1.
  change (one_by_one w [""]) with ("" +:+ delim w +:+ "").
  simpl. by rewrite string_app_nil_r, !string_app_assoc.
Qed.

Lemma rendered_batch_is_parts_then_empty_witness :
  rendered w1 ["bar"; "baz"] = one_by_one w1 (["bar"; "baz"] ++ [""]).
Proof.
  apply (rendered_batch_is_parts_then_empty w1 ["bar"; "baz"]).
  simpl. lia.
Defined.

End LineWriterState.

(** ** The offsets table and the addresses of the KafkaBalanced adapter *)

Module KafkaBalancedProofs.
Import types KafkaBalanced.

(** The offset of the last message of a topic and partition in a
    sequence of messages. *)
Definition last_read (ds : list ConsumerMessage) (topic : string)
    (partition : Z) : option Z :=
  Offset <$>
  last (List.filter
          (fun d => bool_decide (Topic d = topic /\ Partition d = partition))
          ds).

Lemma last_read_app ds1 ds2 topic partition :
  last_read (ds1 ++ ds2) topic partition =
  match last_read ds2 topic partition with
  | Some o => Some o
  | None => last_read ds1 topic partition
  end.
Proof.
  unfold last_read. rewrite List.filter_app, last_app.
  by destruct (last (List.filter _ ds2)).
Qed.

Lemma offset_of_setOffset topic partition offset k topic' partition' :
  offset_of (offsets (setOffset topic partition offset k)) topic' partition' =
  if decide (topic = topic' /\ partition = partition') then Some offset
  else offset_of (offsets k) topic' partition'.
Proof.
  unfold offset_of, setOffset. simpl.
  destruct (decide (topic = topic')) as [<-|Ht].
  - rewrite lookup_insert_eq. simpl.
    destruct (decide (partition = partition')) as [<-|Hp].
    + rewrite lookup_insert_eq. by rewrite decide_True.
    + rewrite lookup_insert_ne by done. rewrite decide_False by tauto.
      by destruct (offsets k !! topic).
  - rewrite lookup_insert_ne by done. by rewrite decide_False by tauto.
Qed.

Lemma offsets_apply_call k c topic partition :
  offset_of (offsets (apply_call k c)) topic partition =
  match last_read (delivered k [c]) topic partition with
  | Some o => Some o
  | None => offset_of (offsets k) topic partition
  end.
Proof.
  unfold last_read.
  destruct c as [new|[data|]|err within commit now|]; simpl;
    unfold Connect, Read, Acknowledge, closeClients;
    destruct (consumer k) eqn:Hc; simpl; try done.
  - by destruct new.
  - pose proof (offset_of_setOffset (Topic data) (Partition data)
                  (Offset data) k topic partition) as Hset.
    unfold setOffset in Hset. simpl in Hset. rewrite Hset.
    destruct (decide (Topic data = topic /\ Partition data = partition)).
    + by rewrite bool_decide_eq_true_2.
    + by rewrite bool_decide_eq_false_2.
  - destruct within; simpl; [done|]. by destruct commit.
  - by destruct within.
Qed.

Lemma delivered_cons k c cs :
  delivered k (c :: cs) = delivered k [c] ++ delivered (apply_call k c) cs.
Proof. simpl. by rewrite app_nil_r. Qed.

(** The table is written by [Read] only, and never cleared: not when
    the consumer is lost, not by [Connect], not by [Acknowledge]. *)
Lemma offsets_apply_calls cs : forall k topic partition,
  offset_of (offsets (apply_calls k cs)) topic partition =
  match last_read (delivered k cs) topic partition with
  | Some o => Some o
  | None => offset_of (offsets k) topic partition
  end.
Proof.
  induction cs as [|c cs IH]; intros k topic partition; [done|].
  change (apply_calls k (c :: cs)) with (apply_calls (apply_call k c) cs).
  rewrite delivered_cons, IH, last_read_app, offsets_apply_call.
  by destruct (last_read (delivered (apply_call k c) cs) topic partition).
Qed.

Lemma elem_of_marks table topic partition offset :
  (topic, partition, offset) ∈ marks table <->
  offset_of table topic partition = Some offset.
Proof.
  unfold marks, offset_of. rewrite list_elem_of_In, in_flat_map. split.
  - intros ([t v] & Htv & Hin). simpl in Hin.
    apply list_elem_of_In, list_elem_of_fmap in Hin as ([p o] & Heq & Hpo).
    simpl in Heq. simplify_eq.
    apply list_elem_of_In, elem_of_map_to_list in Htv.
    apply elem_of_map_to_list in Hpo. by rewrite Htv.
  - destruct (table !! topic) as [v|] eqn:Ht; simpl; [|done]. intros Hp.
    exists (topic, v). split.
    + by apply list_elem_of_In, elem_of_map_to_list.
    + apply list_elem_of_In, list_elem_of_fmap. exists (partition, offset).
      split; [done|]. by apply elem_of_map_to_list.
Qed.


Definition conf0 : KafkaBalancedConfig :=
  mkConfig ["localhost:9092,localhost:9093"; ""] ["a,b"] false.

Definition k0 : KafkaBalanced :=
  {| consumer := None; offsetLastCommitted := None; offsets := ∅;
     addresses := ["localhost:9092"; "localhost:9093"];
     topics := ["a"; "b"] |}.

Definition calls0 : list call :=
  [CallConnect (inl 1%nat);
   CallRead (Some (mkConsumerMessage "x" "a" 0 5));
   CallAcknowledge (Some ErrTimeout) false None 10;
   CallRead (Some (mkConsumerMessage "y" "a" 0 6));
   CallRead None;
   CallConnect (inl 2%nat)].


#[local] Arguments String.append !_ _ / : simpl nomatch.

(** The byte occurs in the string. *)
Fixpoint occurs (c : Ascii.ascii) (s : string) : bool :=
  match s with
  | EmptyString => false
  | String c' s' => bool_decide (c' = c) || occurs c s'
  end.

(** An address or topic that can be handed to the client as it is. *)
Definition plain (s : string) : Prop :=
  0 < String.length s /\ occurs comma s = false.

Lemma Split_not_nil s sep : Split s sep <> [].
Proof.
  destruct s as [|c s]; simpl; [done|].
  destruct (decide (c = sep)); [done|]. by destruct (Split s sep).
Qed.

Lemma Split_no_sep s sep :
  Forall (fun piece => occurs sep piece = false) (Split s sep).
Proof.
  induction s as [|c s IH]; simpl.
  - by constructor.
  - destruct (decide (c = sep)) as [->|Hc]; [by constructor|].
    destruct (Split s sep) as [|piece pieces]; simpl.
    + constructor; [|done]. simpl. by rewrite bool_decide_eq_false_2.
    + apply Forall_cons in IH as [H1 H2]. constructor; [|done].
      simpl. by rewrite bool_decide_eq_false_2.
Qed.

Lemma split_entries_plain entries : Forall plain (split_entries entries).
Proof.
  unfold split_entries. apply Forall_forall. intros piece Hin.
  apply list_elem_of_In, in_flat_map in Hin as (entry & _ & Hin).
  apply filter_In in Hin as [Hin Hlen].
  apply bool_decide_eq_true_1 in Hlen. split; [done|].
  pose proof (Split_no_sep entry comma) as Hall.
  rewrite Forall_forall in Hall. by apply Hall, list_elem_of_In.
Qed.

(** What [NewKafkaBalanced] hands to the client (lines 109-122).  No
    address and no topic of the adapter is empty or contains a comma,
    whatever the configuration lists; and the adapter starts without a
    consumer and with an empty table of offsets. *)
Theorem NewKafkaBalanced_addresses_are_plain conf tls version k :
  NewKafkaBalanced conf tls version = inl k ->
  Forall plain (addresses k) /\ Forall plain (topics k) /\
  consumer k = None /\ offsets k = ∅.
Proof.
  unfold NewKafkaBalanced. intros Hnew.
  destruct (if TLS_Enabled conf then tls else None); [done|].
  destruct version; [done|]. simplify_eq. simpl.
  split_and!; try done; apply split_entries_plain.
Qed.

Lemma NewKafkaBalanced_addresses_are_plain_witness :
  Forall plain (addresses k0) /\ Forall plain (topics k0) /\
  consumer k0 = None /\ offsets k0 = ∅.
Proof.
  apply (NewKafkaBalanced_addresses_are_plain conf0 None None k0).
  vm_compute. reflexivity.
Defined.

Lemma Split_plain s sep : occurs sep s = false -> Split s sep = [s].
Proof.
  induction s as [|c s IH]; simpl; [done|]. intros Hocc.
  apply orb_false_iff in Hocc as [Hc Hocc].
  apply bool_decide_eq_false_1 in Hc.
  rewrite decide_False by done. by rewrite IH.
Qed.

Lemma Split_app s sep rest :
  occurs sep s = false ->
  Split (s +:+ String sep rest) sep = s :: Split rest sep.
Proof.
  induction s as [|c s IH]; simpl.
  - intros _. by rewrite decide_True.
  - intros Hocc. apply orb_false_iff in Hocc as [Hc Hocc].
    apply bool_decide_eq_false_1 in Hc.
    rewrite decide_False by done. by rewrite IH.
Qed.

Lemma kept_Split_Join names :
  Forall plain names ->
  List.filter (fun piece => bool_decide (0 < String.length piece))
    (Split (LineWriter.Join names (String comma EmptyString)) comma)
  = names.
Proof.
  induction names as [|a names IH]; intros Hall; [done|].
  apply Forall_cons in Hall as [[Hlen Hocc] Hall].
  destruct names as [|b names].
  - simpl. rewrite Split_plain by done. simpl.
    by rewrite bool_decide_eq_true_2.
  - change (LineWriter.Join (a :: b :: names) (String comma EmptyString))
      with (a +:+ String comma EmptyString
              +:+ LineWriter.Join (b :: names) (String comma EmptyString)).
    change (String comma EmptyString
              +:+ LineWriter.Join (b :: names) (String comma EmptyString))
      with (String comma
              (LineWriter.Join (b :: names) (String comma EmptyString))).
    rewrite Split_app by done. simpl List.filter.
    rewrite bool_decide_eq_true_2 by done. f_equal. by apply IH.
Qed.

(** A list in one entry (lines 109-122).  An entry of the
    configuration that joins addresses (or topics) with commas stands
    for those addresses, in their order, listed one by one: none is
    lost, none is added and the order is kept, wherever the entry
    stands among the other entries. *)
Theorem comma_list_is_its_entries before names after :
  Forall plain names ->
  split_entries
    (before ++ [LineWriter.Join names (String comma EmptyString)] ++ after)
  = split_entries before ++ names ++ split_entries after.
Proof.
  intros Hall. unfold split_entries.
  rewrite !flat_map_app. simpl. rewrite app_nil_r.
  by rewrite kept_Split_Join.
Qed.

Lemma comma_list_is_its_entries_witness :
  split_entries
    (["a:1"] ++ [LineWriter.Join ["b:2"; "c:3"] (String comma EmptyString)]
     ++ [",,d:4,"])
  = split_entries ["a:1"] ++ ["b:2"; "c:3"] ++ split_entries [",,d:4,"].
Proof.
  apply (comma_list_is_its_entries ["a:1"] ["b:2"; "c:3"] [",,d:4,"]).
  repeat constructor.
Defined.

End KafkaBalancedProofs.

(** ** The order of the pipelines in front of an output *)

Module WithPipelineProofs.
Import types WithPipeline.

Section Wrapping.
Context {Output Pipeline : Type}.
Variable Consume_returns : Streamed Output Pipeline -> error.
Variable Output_Connected : Output -> bool.

(** The order of the pipelines (lines 24-62).  When
    [WrapWithPipelines] succeeds, every constructor has returned a
    pipeline, and a Transaction given to the result passes these
    pipelines in the order of the constructors, the first one first,
    then whatever the wrapped output had in front of it, and reaches
    the same output; [Connected] is that of the wrapped output. *)
Theorem WrapWithPipelines_keeps_order out pipeConstructors wrapped :
  WrapWithPipelines Consume_returns out pipeConstructors = inl wrapped ->
  exists pipes,
    pipeConstructors = inl <$> pipes /\
    route wrapped = (pipes ++ (route out).1, (route out).2) /\
    Connected Output_Connected wrapped = Connected Output_Connected out.
Proof.
  revert wrapped.
  induction pipeConstructors as [|c cs IH]; intros wrapped Hw; simpl in Hw.
  - simplify_eq. exists []. by destruct (route wrapped).
  - fold (WrapWithPipelines Consume_returns out cs) in Hw.
    destruct (WrapWithPipelines Consume_returns out cs) as [out'|err];
      [|done].
    destruct (IH out' eq_refl) as (pipes & -> & Hroute & Hconn).
    unfold WrapWithPipeline in Hw.
    destruct c as [pipe|err]; [|done].
    destruct (Consume_returns out'); [done|]. simplify_eq.
    exists (pipe :: pipes). simpl. by rewrite Hroute, Hconn.
Qed.

End Wrapping.

Definition stdout : Streamed string nat := Plain "stdout".

Definition two_pipelines : list (nat + Err) := [inl 1%nat; inl 2%nat].

Lemma WrapWithPipelines_keeps_order_witness :
  exists pipes,
    two_pipelines = inl <$> pipes /\
    route (WithPipeline (WithPipeline stdout 2%nat) 1%nat)
    = (pipes ++ (route stdout).1, (route stdout).2) /\
    Connected (fun _ => true) (WithPipeline (WithPipeline stdout 2%nat) 1%nat)
    = Connected (fun _ => true) stdout.
Proof.
  apply (WrapWithPipelines_keeps_order (fun _ => None) (fun _ => true)
           stdout two_pipelines).
  reflexivity.
Defined.

End WithPipelineProofs.
